(** * Tornet hidden-service scanner: a shallow embedding

    Source: [tornet/modules/hidden_service_scanner.py], class
    [HiddenServiceScanner].

    Python strings are modelled as [string]; a character stands for a code
    point below 256.  The results dictionary is a [gmap string Result], the
    work queue a FIFO list.  Threads are modelled by an interleaving
    semantics: every atomic action of a worker or of the thread running
    [start] is one step of [thread_step]. *)

From Stdlib Require Import Ascii.
From stdpp Require Import base option list sorting gmap strings pretty.

(** * Part I: definitions *)

(** ** Python string methods used by the scanner *)

Module PyStr.

(** [str.isspace] on one character, for code points below 256:
    TAB..CR, FS..US, SPACE, NEL and NBSP. *)
Definition isspace (c : ascii) : bool :=
  let n := nat_of_ascii c in
  ((9 <=? n) && (n <=? 13)) || ((28 <=? n) && (n <=? 32))
  || (n =? 133) || (n =? 160).

Fixpoint lstrip (s : string) : string :=
  match s with
  | String c s' => if isspace c then lstrip s' else s
  | EmptyString => EmptyString
  end.

Definition rstrip (s : string) : string :=
  String.rev (lstrip (String.rev s)).

(** [s.strip()] *)
Definition strip (s : string) : string := rstrip (lstrip s).

(** [s.startswith(p)] *)
Definition startswith (s p : string) : bool := Stdlib.Strings.String.prefix p s.

(** [s.endswith(p)] *)
Definition endswith (s p : string) : bool :=
  Stdlib.Strings.String.prefix (String.rev p) (String.rev s).

(** [sub in s] *)
Fixpoint contains (sub s : string) : bool :=
  Stdlib.Strings.String.prefix sub s ||
  match s with
  | String _ s' => contains sub s'
  | EmptyString => false
  end.

(** Truth value of a string: [if s]. *)
Definition truthy (s : string) : bool :=
  match s with EmptyString => false | _ => true end.

(** Iterating a text file opened with universal newlines: each item ends
    at a line terminator (LF, CR or CRLF, all given back as LF) or at the
    end of the text. *)
Fixpoint iter_lines_go (cur : string) (s : string) : list string :=
  match s with
  | EmptyString =>
      match cur with EmptyString => [] | _ => [String.rev cur] end
  | String c s' =>
      if Ascii.eqb c "010" then
        String.rev (String "010" cur) :: iter_lines_go EmptyString s'
      else if Ascii.eqb c "013" then
        match s' with
        | String c' s'' =>
            if Ascii.eqb c' "010" then
              String.rev (String "010" cur) :: iter_lines_go EmptyString s''
            else
              String.rev (String "010" cur) :: iter_lines_go EmptyString s'
        | EmptyString => [String.rev (String "010" cur)]
        end
      else iter_lines_go (String c cur) s'
  end.

Definition iter_lines (text : string) : list string :=
  iter_lines_go EmptyString text.

(** [str(x)] inside an f-string for a value that may be [None]. *)
Definition str_opt (o : option string) : string := default "None" o.

End PyStr.

(** The newline character written by the report. *)
Definition nl : string := String "010" EmptyString.

(** ** Data model *)

(** Exceptions, split the way the scanner's handlers split them:
    [requests.exceptions.RequestException] and every other [Exception].
    The message is what [str(e)] gives. *)
Inductive exn : Type :=
| RequestException (msg : string)
| OtherException (msg : string).

Definition str_exn (e : exn) : string :=
  match e with
  | RequestException msg => msg
  | OtherException msg => msg
  end.

(** A call either returns or raises. *)
Inductive outcome (A : Type) : Type :=
| Return (a : A)
| Raise (e : exn).
Arguments Return {A} a.
Arguments Raise {A} e.

(** What the scanner reads of a [requests.Response]. *)
Record Response : Type := {
  status_code : Z;
  headers_get : string -> option string;
  text : string
}.

(** What the scanner reads of a parsed document: [soup.title] and
    [soup.find_all(name)]. *)
Record Tag : Type := { tag_text : string }.

Record Soup : Type := {
  soup_title : option Tag;
  soup_find_all : string -> list Tag
}.

(** The external collaborators at the moment a thread acts: the HTTP
    session behind the proxy, the HTML parser and the clock. *)
Record World : Type := {
  session_get : string -> outcome Response;
  BeautifulSoup : string -> outcome Soup;
  time_time : Z;
  time_strftime : string
}.

(** The dictionary built by [_scan_domain]. *)
Record ScanInfo : Type := {
  status : string;
  response_code : option Z;
  title : option string;
  server : option string;
  content_type : option string;
  links : nat;
  scan_time : Z
}.

(** A value of the results dictionary: the dictionary of [_scan_domain],
    or the two-key dictionary [{'status': 'error', 'error': str(e)}]
    written by the worker's handler. *)
Inductive Result : Type :=
| Scan (r : ScanInfo)
| ErrorDict (error : string).

Definition result_status (r : Result) : string :=
  match r with
  | Scan r => status r
  | ErrorDict _ => "error"
  end.

(** The input path as the file system shows it to [_load_onion_domains]. *)
Inductive File : Type :=
| Missing
| Unreadable (e : exn)
| Readable (content : string).

(** The fields of [HiddenServiceScanner] that change during a scan. *)
Record Scanner : Type := {
  threads : nat;
  queue : list string;
  results : gmap string Result;
  active_count : nat;
  total_count : nat
}.

(** [__init__] *)
Definition init (n : nat) : Scanner :=
  {| threads := n; queue := []; results := ∅;
     active_count := 0; total_count := 0 |}.

Definition set_queue (q : list string) (s : Scanner) : Scanner :=
  {| threads := threads s; queue := q; results := results s;
     active_count := active_count s; total_count := total_count s |}.

Definition set_results (m : gmap string Result) (s : Scanner) : Scanner :=
  {| threads := threads s; queue := queue s; results := m;
     active_count := active_count s; total_count := total_count s |}.

Definition set_active_count (n : nat) (s : Scanner) : Scanner :=
  {| threads := threads s; queue := queue s; results := results s;
     active_count := n; total_count := total_count s |}.

Definition set_total_count (n : nat) (s : Scanner) : Scanner :=
  {| threads := threads s; queue := queue s; results := results s;
     active_count := active_count s; total_count := n |}.

(** ** [_load_onion_domains] *)

(** The body of [for line in f]. *)
Definition load_line (domains : list string) (line : string) : list string :=
  let domain := PyStr.strip line in
  if PyStr.truthy domain && PyStr.endswith domain ".onion" then
    let domain :=
      if negb (PyStr.startswith domain "http")
      then "http://" +:+ domain else domain in
    domains ++ [domain]
  else domains.

(** [self.queue.put(domain)] *)
Definition queue_put (s : Scanner) (domain : string) : Scanner :=
  set_queue (queue s ++ [domain]) s.

Definition _load_onion_domains (f : File) (s : Scanner) : bool * Scanner :=
  match f with
  | Missing => (false, s)
  | Unreadable _ => (false, s)
  | Readable content =>
      let domains := foldl load_line [] (PyStr.iter_lines content) in
      let s := set_total_count (length domains) s in
      let s := foldl queue_put s domains in
      (true, s)
  end.

(** ** [_scan_domain] *)

Definition set_status (v : string) (r : ScanInfo) : ScanInfo :=
  {| status := v; response_code := response_code r; title := title r;
     server := server r; content_type := content_type r; links := links r;
     scan_time := scan_time r |}.

Definition set_response_code (v : option Z) (r : ScanInfo) : ScanInfo :=
  {| status := status r; response_code := v; title := title r;
     server := server r; content_type := content_type r; links := links r;
     scan_time := scan_time r |}.

Definition set_title (v : option string) (r : ScanInfo) : ScanInfo :=
  {| status := status r; response_code := response_code r; title := v;
     server := server r; content_type := content_type r; links := links r;
     scan_time := scan_time r |}.

Definition set_server (v : option string) (r : ScanInfo) : ScanInfo :=
  {| status := status r; response_code := response_code r; title := title r;
     server := v; content_type := content_type r; links := links r;
     scan_time := scan_time r |}.

Definition set_content_type (v : option string) (r : ScanInfo) : ScanInfo :=
  {| status := status r; response_code := response_code r; title := title r;
     server := server r; content_type := v; links := links r;
     scan_time := scan_time r |}.

Definition set_links (v : nat) (r : ScanInfo) : ScanInfo :=
  {| status := status r; response_code := response_code r; title := title r;
     server := server r; content_type := content_type r; links := v;
     scan_time := scan_time r |}.

(** The [except requests.exceptions.RequestException] clause: it returns
    the dictionary as it stands; any other exception leaves the function. *)
Definition scan_except (e : exn) (result : ScanInfo) : outcome ScanInfo :=
  match e with
  | RequestException _ => Return result
  | OtherException _ => Raise e
  end.

Definition _scan_domain (w : World) (url : string) : outcome ScanInfo :=
  let result :=
    {| status := "inactive"; response_code := None; title := None;
       server := None; content_type := None; links := 0;
       scan_time := time_time w |} in
  match session_get w url with
  | Raise e => scan_except e result
  | Return response =>
      let result := set_response_code (Some (status_code response)) result in
      let result := set_status "active" result in
      let result :=
        set_server (Some (default "Unknown" (headers_get response "Server")))
                   result in
      let ctype := default "Unknown" (headers_get response "Content-Type") in
      let result := set_content_type (Some ctype) result in
      if PyStr.contains "text/html" ctype then
        match BeautifulSoup w (text response) with
        | Raise e => scan_except e result
        | Return soup =>
            let result :=
              set_title
                (Some match soup_title soup with
                      | Some t => PyStr.strip (tag_text t)
                      | None => "No title"
                      end) result in
            let result := set_links (length (soup_find_all soup "a")) result in
            Return result
        end
      else Return result
  end.

(** ** [_save_results] *)

(** Order of [sorted(self.results.items())]: the keys of a dictionary are
    distinct, so the comparison of two items is decided by their keys. *)
Definition item_le (x y : string * Result) : Prop := String.le x.1 y.1.

Global Instance item_le_dec : RelDecision item_le.
Proof. intros x y. unfold item_le. apply _. Defined.

Definition sorted_items (m : gmap string Result) : list (string * Result) :=
  merge_sort item_le (map_to_list m).

(** The text written for one item by the loop of the active section. An
    item with status [active] is always a dictionary of [_scan_domain]. *)
Definition active_entry (domain : string) (r : ScanInfo) : string :=
  "URL: " +:+ domain +:+ nl +:+
  "Response Code: " +:+ PyStr.str_opt (pretty <$> response_code r) +:+ nl +:+
  "Title: " +:+ PyStr.str_opt (title r) +:+ nl +:+
  "Server: " +:+ PyStr.str_opt (server r) +:+ nl +:+
  "Content Type: " +:+ PyStr.str_opt (content_type r) +:+ nl +:+
  "Links: " +:+ pretty (links r) +:+ nl +:+
  nl.

Definition write_active (f : string) (item : string * Result) : string :=
  if bool_decide (result_status item.2 = "active") then
    match item.2 with
    | Scan r => f +:+ active_entry item.1 r
    | ErrorDict _ => f
    end
  else f.

Definition inactive_entry (domain : string) : string :=
  "URL: " +:+ domain +:+ nl.

Definition write_inactive (f : string) (item : string * Result) : string :=
  if bool_decide (result_status item.2 = "inactive") then
    f +:+ inactive_entry item.1
  else f.

(** Modelled from the spec: the source stops inside the [if] of the loop
    over the error section, so its test and its body are missing. The spec
    gives them as "simply listing error-status targets and their captured
    error message". *)
Definition error_entry (domain : string) (error : string) : string :=
  "URL: " +:+ domain +:+ nl +:+
  "Error: " +:+ error +:+ nl.

(** Modelled from the spec: the loop body of the error section (see
    [error_entry]). *)
Definition write_error (f : string) (item : string * Result) : string :=
  if bool_decide (result_status item.2 = "error") then
    match item.2 with
    | ErrorDict e => f +:+ error_entry item.1 e
    | Scan _ => f
    end
  else f.

Definition report_header (w : World) (s : Scanner) : string :=
  "# Onion Service Scan Results" +:+ nl +:+
  "# Total scanned: " +:+ pretty (total_count s) +:+ nl +:+
  "# Active: " +:+ pretty (active_count s) +:+ nl +:+
  "# Scan time: " +:+ time_strftime w +:+ nl +:+ nl.

(** The file name and the text written. *)
Definition _save_results (w : World) (s : Scanner) : string * string :=
  let output_file :=
    "onion_scan_results_" +:+ pretty (time_time w) +:+ ".txt" in
  let f := report_header w s in
  let f := f +:+ "## Active Sites" +:+ nl +:+ nl in
  let f := foldl write_active f (sorted_items (results s)) in
  let f := f +:+ "## Inactive Sites" +:+ nl +:+ nl in
  let f := foldl write_inactive f (sorted_items (results s)) in
  let f := f +:+ "## Error Sites" +:+ nl +:+ nl in
  let f := foldl write_error f (sorted_items (results s)) in
  (output_file, f).

(** ** The worker pool *)

(** Where a worker stands in [_worker]: about to call [queue.get], holding
    a domain it took from the queue, or out of its loop. *)
Inductive wstate : Type :=
| WGet
| WScan (domain : string)
| WExit.

Global Instance wstate_eq_dec : EqDecision wstate.
Proof. solve_decision. Defined.

(** Where the thread running [start] stands: at the test of the [while]
    loop, at the read of [len(self.results)], at the test that all
    workers are done, before [_save_results], or returned. *)
Inductive mstate : Type :=
| MWhile (processed : nat)
| MLen (processed : nat)
| MCheck (processed : nat)
| MSave
| MReturn (r : bool).

Record Pool : Type := {
  self : Scanner;
  workers : list wstate;
  main : mstate
}.

Inductive tid : Type :=
| Main
| Worker (i : nat).

Definition is_exit (st : wstate) : bool :=
  match st with WExit => true | _ => false end.

(** [not worker.is_alive()] for all workers *)
Definition all_exited (ws : list wstate) : bool := forallb is_exit ws.

(** [self.queue.empty()] *)
Definition queue_empty (s : Scanner) : bool :=
  match queue s with [] => true | _ => false end.

(** One turn of a worker. Taking a domain from the queue is one atomic
    action; the scan touches no shared field, so the scan and the block
    under the lock that records its result are one action as well.
    [task_done] only counts, and nothing waits on that count. *)
Definition worker_step (w : World) (st : wstate) (s : Scanner)
  : option (wstate * Scanner) :=
  match st with
  | WGet =>
      match queue s with
      | [] => Some (WExit, s)
      | domain :: q => Some (WScan domain, set_queue q s)
      end
  | WScan domain =>
      match _scan_domain w domain with
      | Return result =>
          let s := set_results (<[domain := Scan result]> (results s)) s in
          let s :=
            if bool_decide (status result = "active")
            then set_active_count (active_count s + 1) s else s in
          Some (WGet, s)
      | Raise e =>
          let s :=
            set_results (<[domain := ErrorDict (str_exn e)]> (results s)) s in
          Some (WGet, s)
      end
  | WExit => None
  end.

(** One turn of the thread running [start], after the workers were made.
    At [MSave] it writes the file [_save_results w (self p)] and returns
    [True]. *)
Definition main_step (w : World) (p : Pool) : option Pool :=
  match main p with
  | MWhile processed =>
      Some {| self := self p; workers := workers p;
              main := if processed <? total_count (self p)
                      then MLen processed else MSave |}
  | MLen processed =>
      let new_processed := size (results (self p)) in
      Some {| self := self p; workers := workers p;
              main := MCheck (if processed <? new_processed
                              then new_processed else processed) |}
  | MCheck processed =>
      Some {| self := self p; workers := workers p;
              main := if queue_empty (self p) && all_exited (workers p)
                      then MSave else MWhile processed |}
  | MSave =>
      Some {| self := self p; workers := workers p; main := MReturn true |}
  | MReturn _ => None
  end.

Definition thread_step (w : World) (t : tid) (p : Pool) : option Pool :=
  match t with
  | Main => main_step w p
  | Worker i =>
      st ← workers p !! i;
      '(st', s') ← worker_step w st (self p);
      Some {| self := s'; workers := <[i := st']> (workers p);
              main := main p |}
  end.

(** A schedule names, turn by turn, the thread that acts and the world it
    meets. A thread that cannot act leaves the pool as it is. *)
Definition sched : Type := list (tid * World).

Definition turn (p : Pool) (tw : tid * World) : Pool :=
  default p (thread_step tw.2 tw.1 p).

Definition run (sc : sched) (p : Pool) : Pool := foldl turn p sc.

(** The key a turn stores in the results dictionary, if it stores one. *)
Definition turn_write (p : Pool) (t : tid) : list string :=
  match t with
  | Main => []
  | Worker i =>
      match workers p !! i with
      | Some (WScan domain) => [domain]
      | _ => []
      end
  end.

(** Every store into the results dictionary made along a schedule. *)
Fixpoint writes (sc : sched) (p : Pool) : list string :=
  match sc with
  | [] => []
  | tw :: sc => turn_write p tw.1 ++ writes sc (turn p tw)
  end.

(** ** [start] *)

(** The workers are made one after another; a worker not made yet and a
    worker that has not acted yet look the same to every other thread,
    so the pool starts with all of them at [queue.get]. *)
Definition spawn (s : Scanner) : Pool :=
  {| self := s; workers := replicate (threads s) WGet;
     main := MWhile 0 |}.

(** [start] up to the point where the pool runs: it has returned [False],
    or the workers are made and the progress loop begins. *)
Inductive started : Type :=
| Aborted (ret : bool) (s : Scanner)
| Spawned (p : Pool).

Definition start (f : File) (s : Scanner) : started :=
  let '(ok, s) := _load_onion_domains f s in
  if negb ok then Aborted false s else Spawned (spawn s).

(** The pool is complete: the queue is empty and every worker is out. *)
Definition pool_complete (p : Pool) : Prop :=
  queue (self p) = [] ∧ Forall (λ st, st = WExit) (workers p).

(** [start] has gone past the progress loop. *)
Definition past_loop (p : Pool) : Prop :=
  main p = MSave ∨ ∃ r, main p = MReturn r.

(** ** The layout of the report *)

(** The texts of a list, one after the other. *)
Definition join (l : list string) : string := foldr String.append "" l.

(** What the report holds for one item, by the status of its result. *)
Definition item_text (item : string * Result) : string :=
  match item.2 with
  | Scan r =>
      if bool_decide (status r = "active") then active_entry item.1 r
      else if bool_decide (status r = "inactive") then inactive_entry item.1
      else ""
  | ErrorDict e => error_entry item.1 e
  end.

(** The items with a given status, in the order of the list. *)
Definition group (st : string) (items : list (string * Result))
  : list (string * Result) :=
  filter (λ item, result_status item.2 = st) items.

(** ** The invariant of a running pool *)

(** The domains taken from the queue whose result is not stored yet. *)
Definition held (st : wstate) : list string :=
  match st with WScan domain => [domain] | _ => [] end.

Definition holding (ws : list wstate) : list string := ws ≫= held.

(** [targets] are the domains put on the queue by the loader and [done]
    the keys stored so far, in the order of the stores. *)
Record pool_inv (targets done : list string) (p : Pool) : Prop := {
  inv_perm : targets ≡ₚ done ++ holding (workers p) ++ queue (self p);
  inv_dom : dom (results (self p)) =@{gset string} list_to_set done;
  inv_total : total_count (self p) = length targets;
  inv_processed :
    ∀ k, main p = MWhile k ∨ main p = MLen k ∨ main p = MCheck k →
         k ≤ size (results (self p));
  inv_past : past_loop p → queue (self p) = [] ∧ holding (workers p) = [];
  inv_exit : Exists (λ st, st = WExit) (workers p) → queue (self p) = [];
  inv_ret : main p ≠ MReturn false
}.

(** What is left to do for the workers: a queued domain costs three
    turns (take it, store its result, and one more for the queue test),
    a held domain two, a worker at the queue one. *)
Definition wcost (st : wstate) : nat :=
  match st with WGet => 1 | WScan _ => 2 | WExit => 0 end.

Definition work_left (p : Pool) : nat :=
  3 * length (queue (self p)) + sum_list_with wcost (workers p).

(** ** Sample worlds and runs *)

(** A document with the given title tag and no anchor. *)
Definition sample_soup (t : option string) : Soup :=
  {| soup_title := (λ x, {| tag_text := x |}) <$> t;
     soup_find_all := λ _, [] |}.

(** Every GET times out. *)
Definition offline : World :=
  {| session_get := λ _, Raise (RequestException "timed out");
     BeautifulSoup := λ _, Return (sample_soup None);
     time_time := 0; time_strftime := "1970-01-01 00:00:00" |}.

(** Every GET fails outside of the request exceptions. *)
Definition broken : World :=
  {| session_get := λ _, Raise (OtherException "boom");
     BeautifulSoup := λ _, Return (sample_soup None);
     time_time := 0; time_strftime := "1970-01-01 00:00:00" |}.

(** Every GET is answered with the given code and Content-Type, and the
    parser finds the given title. *)
Definition serving (code : Z) (ctype : string) (t : option string) : World :=
  {| session_get := λ _,
       Return {| status_code := code;
                 headers_get := λ k,
                   if bool_decide (k = "Content-Type") then Some ctype
                   else None;
                 text := "" |};
     BeautifulSoup := λ _, Return (sample_soup t);
     time_time := 0; time_strftime := "1970-01-01 00:00:00" |}.

(** Every GET is answered with the given code and an HTML content type,
    and the parser rejects the page. *)
Definition unparsable (code : Z) : World :=
  {| session_get := λ _,
       Return {| status_code := code;
                 headers_get := λ k,
                   if bool_decide (k = "Content-Type") then Some "text/html"
                   else None;
                 text := "<![" |};
     BeautifulSoup := λ _, Raise (OtherException "markup rejected");
     time_time := 0; time_strftime := "1970-01-01 00:00:00" |}.

(** The result of a plain-text page answered with code 200. *)
Definition sample_active : ScanInfo :=
  {| status := "active"; response_code := Some 200%Z; title := None;
     server := Some "nginx"; content_type := Some "text/plain"; links := 0;
     scan_time := 0 |}.

(** The pool [start] makes for a readable file. *)
Definition pool_of (content : string) (n : nat) : Pool :=
  spawn (_load_onion_domains (Readable content) (init n)).2.

Definition two_targets : string := "a.onion" +:+ nl +:+ "b.onion" +:+ nl.

(** Two workers take one target each, store, see the empty queue and
    leave. *)
Definition two_workers_run : sched :=
  [(Worker 0, offline); (Worker 1, offline); (Worker 1, broken);
   (Worker 0, serving 404 "text/html" None);
   (Worker 0, offline); (Worker 1, offline)].

Definition one_target : string := "a.onion" +:+ nl.

(** One worker takes the target and stores its result; [start] counts
    one result out of one and leaves its loop; the worker has not been
    back to the queue. *)
Definition early_report_run : sched :=
  [(Worker 0, offline); (Worker 0, offline);
   (Main, offline); (Main, offline); (Main, offline); (Main, offline)].

(** ** Observations on a run *)

(** The value a worker stores for a domain it scanned: the dictionary of
    [_scan_domain], or the error dictionary of the handler. *)
Definition stored (w : World) (domain : string) : Result :=
  match _scan_domain w domain with
  | Return result => Scan result
  | Raise e => ErrorDict (str_exn e)
  end.

(** The domain a turn takes from the queue, if it takes one. *)
Definition turn_take (p : Pool) (t : tid) : list string :=
  match t with
  | Main => []
  | Worker i =>
      match workers p !! i with
      | Some WGet => take 1 (queue (self p))
      | _ => []
      end
  end.

(** Every domain taken from the queue along a schedule, in order. *)
Fixpoint takes (sc : sched) (p : Pool) : list string :=
  match sc with
  | [] => []
  | tw :: sc => turn_take p tw.1 ++ takes sc (turn p tw)
  end.

(** Whether a turn is the action of a worker still in its loop. *)
Definition turn_acts (p : Pool) (t : tid) : nat :=
  match t with
  | Main => 0
  | Worker i =>
      match workers p !! i with
      | Some WGet | Some (WScan _) => 1
      | _ => 0
      end
  end.

(** The number of worker actions along a schedule. *)
Fixpoint acts (sc : sched) (p : Pool) : nat :=
  match sc with
  | [] => 0
  | tw :: sc => turn_acts p tw.1 + acts sc (turn p tw)
  end.

(** The worker actions still to come: a take and a store for a queued
    domain, a store and a last look at the queue for a worker that holds
    one, a look at the queue for a worker about to take. *)
Definition pending (p : Pool) : nat :=
  2 * length (queue (self p)) + sum_list_with wcost (workers p).

(** What a turn does to the scanner and to the workers: nothing to
    either (a turn of [start], or of a worker that is out), or one of the
    three actions of a worker. *)
Inductive turn_kind (p : Pool) (tw : tid * World) : Prop :=
| TurnIdle :
    self (turn p tw) = self p → workers (turn p tw) = workers p →
    turn_write p tw.1 = [] → turn_take p tw.1 = [] → turn_acts p tw.1 = 0 →
    turn_kind p tw
| TurnExit (i : nat) :
    tw.1 = Worker i → workers p !! i = Some WGet → queue (self p) = [] →
    self (turn p tw) = self p →
    workers (turn p tw) = <[i:=WExit]> (workers p) →
    main (turn p tw) = main p →
    turn_write p tw.1 = [] → turn_take p tw.1 = [] → turn_acts p tw.1 = 1 →
    turn_kind p tw
| TurnTake (i : nat) (d : string) (q : list string) :
    tw.1 = Worker i → workers p !! i = Some WGet → queue (self p) = d :: q →
    self (turn p tw) = set_queue q (self p) →
    workers (turn p tw) = <[i:=WScan d]> (workers p) →
    main (turn p tw) = main p →
    turn_write p tw.1 = [] → turn_take p tw.1 = [d] → turn_acts p tw.1 = 1 →
    turn_kind p tw
| TurnStore (i : nat) (d : string) :
    tw.1 = Worker i → workers p !! i = Some (WScan d) →
    results (self (turn p tw)) = <[d:=stored tw.2 d]> (results (self p)) →
    queue (self (turn p tw)) = queue (self p) →
    total_count (self (turn p tw)) = total_count (self p) →
    active_count (self (turn p tw))
    = active_count (self p)
      + (if bool_decide (result_status (stored tw.2 d) = "active")
         then 1 else 0) →
    workers (turn p tw) = <[i:=WGet]> (workers p) →
    main (turn p tw) = main p →
    turn_write p tw.1 = [d] → turn_take p tw.1 = [] → turn_acts p tw.1 = 1 →
    turn_kind p tw.

(** A file with the same line twice. *)
Definition twice_same : string := "a.onion" +:+ nl +:+ "a.onion" +:+ nl.

(** * Part II: properties *)

(** ** Loading the input file *)

Lemma foldl_queue_put (domains : list string) (s : Scanner) :
  foldl queue_put s domains = set_queue (queue s ++ domains) s.
Proof.
  revert s. induction domains as [|d ds IH]; intros s; simpl.
  - rewrite app_nil_r. by destruct s.
  - rewrite IH. unfold queue_put, set_queue. simpl.
    by rewrite <- app_assoc.
Qed.

Lemma truthy_true (s : string) : PyStr.truthy s = true ↔ s ≠ "".
Proof. destruct s; simpl; split; congruence. Qed.

Lemma foldl_load_line (lines acc : list string) :
  ∃ new,
    foldl load_line acc lines = acc ++ new ∧
    Forall2 (λ line d,
               d = PyStr.strip line ∨ d = "http://" +:+ PyStr.strip line)
            (filter (λ line, PyStr.strip line ≠ "" ∧
                             PyStr.endswith (PyStr.strip line) ".onion" = true)
                    lines)
            new.
Proof.
  revert acc. induction lines as [|line lines IH]; intros acc.
  - exists []. by rewrite app_nil_r.
  - cbn [foldl]. unfold load_line at 2.
    destruct (PyStr.truthy (PyStr.strip line)) eqn:Ht;
      [destruct (PyStr.endswith (PyStr.strip line) ".onion") eqn:He|];
      cbn [andb].
    + match goal with |- context [foldl load_line (acc ++ [?x]) _] =>
        destruct (IH (acc ++ [x])) as (new & -> & HF); exists (x :: new)
      end.
      split; [by rewrite <- app_assoc|].
      rewrite filter_cons_True; [|by split; [apply truthy_true|]].
      constructor; [|done].
      destruct (PyStr.startswith (PyStr.strip line) "http"); cbn [negb]; auto.
    + destruct (IH acc) as (new & -> & HF). exists new. split; [done|].
      rewrite filter_cons_False; [done|]. rewrite He. by intros [_ ?].
    + destruct (IH acc) as (new & -> & HF). exists new. split; [done|].
      rewrite filter_cons_False; [done|].
      intros [?%truthy_true _]. congruence.
Qed.

Lemma load_readable (content : string) (s : Scanner) :
  ∃ new : list string,
    _load_onion_domains (Readable content) s
    = (true, set_queue (queue s ++ new) (set_total_count (length new) s))
    ∧ Forall2 (λ line d,
                 d = PyStr.strip line ∨ d = "http://" +:+ PyStr.strip line)
              (filter (λ line, PyStr.strip line ≠ "" ∧
                         PyStr.endswith (PyStr.strip line) ".onion" = true)
                      (PyStr.iter_lines content))
              new.
Proof.
  cbn [_load_onion_domains].
  destruct (foldl_load_line (PyStr.iter_lines content) []) as (new & Hn & HF).
  exists new. rewrite Hn. cbn [app]. rewrite foldl_queue_put. by split.
Qed.

(** C2. [_load_onion_domains] puts one entry on the queue for each line
    that, once stripped, is not empty and ends with ".onion", in the order
    of the file, and nothing for any other line; the entry is the stripped
    line, with or without "http://" in front. The count of loaded targets
    is the number of such lines. For the three lines "abc.onion", "" and
    "def.onion" the count is 2 and the queue holds 2 entries. *)
Theorem load_enqueues_accepted_lines :
  (∀ (content : string) (s : Scanner),
     ∃ new : list string,
       _load_onion_domains (Readable content) s
       = (true, set_queue (queue s ++ new) (set_total_count (length new) s))
       ∧ Forall2 (λ line d,
                    d = PyStr.strip line ∨ d = "http://" +:+ PyStr.strip line)
                 (filter (λ line, PyStr.strip line ≠ "" ∧
                            PyStr.endswith (PyStr.strip line) ".onion" = true)
                         (PyStr.iter_lines content))
                 new)
  ∧ (let content := "abc.onion" +:+ nl +:+ nl +:+ "def.onion" +:+ nl in
     PyStr.iter_lines content
     = ["abc.onion" +:+ nl; nl; "def.onion" +:+ nl]
     ∧ ∀ n, ∃ s',
         _load_onion_domains (Readable content) (init n) = (true, s')
         ∧ total_count s' = 2
         ∧ length (queue s') = 2
         ∧ queue s' = ["http://abc.onion"; "http://def.onion"]).
Proof.
  split.
  - apply load_readable.
  - split; [reflexivity|]. intros n. eexists. split; [reflexivity|].
    by repeat split.
Qed.

(** C3. The test that decides whether "http://" is put in front is
    [startswith('http')]: the accepted line "httpabc.onion" has no scheme
    and is put on the queue as it is, and the accepted line
    "ftp://abc.onion" has a scheme and gets "http://" in front. *)
Theorem load_scheme_test_is_http_prefix :
  queue (_load_onion_domains (Readable ("httpabc.onion" +:+ nl)) (init 10)).2
  = ["httpabc.onion"]
  ∧ PyStr.contains "://" "httpabc.onion" = false
  ∧ queue (_load_onion_domains (Readable ("ftp://abc.onion" +:+ nl)) (init 10)).2
    = ["http://ftp://abc.onion"].
Proof. by repeat split. Qed.

(** ** Scanning one target *)

(** C4, as stated: every GET answered with code 200 and an HTML content
    type would give a result with status "active" and a title. When the
    parser raises on the page, [_scan_domain] returns no result: the
    exception leaves it and the worker stores status "error". *)
Lemma html_200_parser_raises_no_title :
  ¬ (∀ (w : World) (url : string) (response : Response) (ctype : string),
       session_get w url = Return response →
       status_code response = 200%Z →
       headers_get response "Content-Type" = Some ctype →
       PyStr.contains "text/html" ctype = true →
       ∃ result,
         _scan_domain w url = Return result
         ∧ status result = "active" ∧ title result ≠ None).
Proof.
  intros H.
  destruct (H (unparsable 200) "http://a.onion" _ "text/html"
              eq_refl eq_refl eq_refl eq_refl) as (result & Hscan & _).
  discriminate Hscan.
Qed.

(** C4, amended. When the GET returns code 200 with a Content-Type that
    contains "text/html", what [_scan_domain] gives depends on the parser.
    If the parser returns a document, the result has status "active",
    code 200 and a title that is not [None]: the stripped text of the
    title tag when the document has one, "No title" otherwise. If the
    parser raises an exception that is not a request exception, that
    exception leaves [_scan_domain] and the worker stores the error
    dictionary with its text. If the parser raises a request exception,
    the handler of [_scan_domain] returns the result as it stands: status
    "active", code 200 and no title. *)
Theorem scan_html_200_active_with_title
    (w : World) (url : string) (response : Response) (ctype : string) :
  session_get w url = Return response →
  status_code response = 200%Z →
  headers_get response "Content-Type" = Some ctype →
  PyStr.contains "text/html" ctype = true →
  match BeautifulSoup w (text response) with
  | Return soup =>
      ∃ result,
        _scan_domain w url = Return result
        ∧ status result = "active"
        ∧ response_code result = Some 200%Z
        ∧ title result ≠ None
        ∧ title result
          = Some match soup_title soup with
                 | Some t => PyStr.strip (tag_text t)
                 | None => "No title"
                 end
  | Raise (OtherException msg) =>
      _scan_domain w url = Raise (OtherException msg)
      ∧ stored w url = ErrorDict msg
  | Raise (RequestException msg) =>
      ∃ result,
        _scan_domain w url = Return result
        ∧ status result = "active"
        ∧ response_code result = Some 200%Z
        ∧ title result = None
  end.
Proof.
  intros Hget Hcode Hct Hhtml. unfold stored, _scan_domain.
  rewrite Hget, Hct. change (default "Unknown" (Some ctype)) with ctype.
  rewrite Hhtml, Hcode.
  destruct (BeautifulSoup w (text response)) as [soup|[msg|msg]].
  - eexists. split; [reflexivity|]. by repeat split.
  - eexists. split; [reflexivity|]. by repeat split.
  - by split.
Qed.

Lemma scan_html_200_active_with_title_witness :
  (∃ result,
     _scan_domain (serving 200 "text/html; charset=utf-8" (Some " Home "))
                  "http://a.onion" = Return result
     ∧ status result = "active"
     ∧ response_code result = Some 200%Z
     ∧ title result ≠ None
     ∧ title result = Some "Home")
  ∧ _scan_domain (unparsable 200) "http://a.onion"
    = Raise (OtherException "markup rejected")
  ∧ stored (unparsable 200) "http://a.onion" = ErrorDict "markup rejected".
Proof.
  split.
  - exact (scan_html_200_active_with_title
             (serving 200 "text/html; charset=utf-8" (Some " Home "))
             "http://a.onion"
             {| status_code := 200;
                headers_get := λ k,
                  if bool_decide (k = "Content-Type")
                  then Some "text/html; charset=utf-8" else None;
                text := "" |}
             "text/html; charset=utf-8" eq_refl eq_refl eq_refl eq_refl).
  - exact (scan_html_200_active_with_title (unparsable 200) "http://a.onion"
             {| status_code := 200;
                headers_get := λ k,
                  if bool_decide (k = "Content-Type")
                  then Some "text/html" else None;
                text := "<![" |}
             "text/html" eq_refl eq_refl eq_refl eq_refl).
Defined.

(** C5. When the GET raises a request exception, [_scan_domain] returns a
    result with status "inactive" and no response code, and the worker
    that holds the target stores this result under the target and goes
    back to the queue; the count of active targets does not move. *)
Theorem request_error_recorded_inactive
    (w : World) (url msg : string) (p : Pool) (i : nat) :
  session_get w url = Raise (RequestException msg) →
  workers p !! i = Some (WScan url) →
  ∃ result p',
    _scan_domain w url = Return result
    ∧ status result = "inactive"
    ∧ response_code result = None
    ∧ thread_step w (Worker i) p = Some p'
    ∧ results (self p') !! url = Some (Scan result)
    ∧ workers p' !! i = Some WGet
    ∧ active_count (self p') = active_count (self p).
Proof.
  intros Hget Hw. unfold thread_step. rewrite Hw. cbn [mbind option_bind].
  unfold worker_step, _scan_domain. rewrite Hget. cbn.
  do 2 eexists. split; [reflexivity|]. do 3 (split; [reflexivity|]).
  split; [apply lookup_insert_eq|]. split; [|done].
  apply list_lookup_insert_eq. by eapply lookup_lt_Some.
Qed.

Lemma request_error_recorded_inactive_witness :
  ∃ result p',
    _scan_domain offline "http://a.onion" = Return result
    ∧ status result = "inactive"
    ∧ response_code result = None
    ∧ thread_step offline (Worker 0)
        (run [(Worker 0, offline)] (pool_of one_target 1)) = Some p'
    ∧ results (self p') !! "http://a.onion" = Some (Scan result)
    ∧ workers p' !! 0 = Some WGet
    ∧ active_count (self p')
      = active_count (self (run [(Worker 0, offline)] (pool_of one_target 1))).
Proof.
  apply (request_error_recorded_inactive offline "http://a.onion"
           "timed out" (run [(Worker 0, offline)] (pool_of one_target 1)) 0);
    reflexivity.
Defined.

Lemma scan_response_active (w : World) (url : string) (response : Response)
    (result : ScanInfo) :
  session_get w url = Return response →
  _scan_domain w url = Return result →
  status result = "active"
  ∧ response_code result = Some (status_code response).
Proof.
  intros Hget. unfold _scan_domain, scan_except. rewrite Hget.
  destruct (PyStr.contains _ _); [|by intros ?; simplify_eq].
  destruct (BeautifulSoup w (text response)) as [soup|[msg|msg]];
    by intros ?; simplify_eq.
Qed.

(** C10, as stated: every target whose GET returns a response would be
    classified "active". A response with code 404 and an HTML content
    type on which the parser raises gives no result from [_scan_domain],
    and the target is stored with status "error". *)
Lemma response_with_parser_error_not_active :
  ¬ (∀ (w : World) (url : string) (response : Response),
       session_get w url = Return response →
       ∃ result,
         _scan_domain w url = Return result
         ∧ status result = "active"
         ∧ response_code result = Some (status_code response))
  ∧ result_status (stored (unparsable 404) "http://a.onion") = "error".
Proof.
  split; [|reflexivity]. intros H.
  destruct (H (unparsable 404) "http://a.onion" _ eq_refl)
    as (result & Hscan & _).
  discriminate Hscan.
Qed.

(** C10, amended. When the GET returns a response, whatever its code,
    [_scan_domain] returns a result with status "active" that holds that
    code, except in one case: the Content-Type contains "text/html" and
    the parser raises an exception that is not a request exception; then
    the exception leaves [_scan_domain] and the worker stores the error
    dictionary with its text. [_scan_domain] returns a result with status
    "inactive" exactly when the GET itself raised a request exception,
    never because of a response code. *)
Theorem any_response_is_active (w : World) (url : string) :
  (∀ response,
     session_get w url = Return response →
     if PyStr.contains "text/html"
          (default "Unknown" (headers_get response "Content-Type"))
     then
       match BeautifulSoup w (text response) with
       | Raise (OtherException msg) =>
           _scan_domain w url = Raise (OtherException msg)
           ∧ stored w url = ErrorDict msg
       | _ =>
           ∃ result,
             _scan_domain w url = Return result
             ∧ status result = "active"
             ∧ response_code result = Some (status_code response)
       end
     else
       ∃ result,
         _scan_domain w url = Return result
         ∧ status result = "active"
         ∧ response_code result = Some (status_code response))
  ∧ ((∃ result,
        _scan_domain w url = Return result ∧ status result = "inactive")
     ↔ ∃ msg, session_get w url = Raise (RequestException msg)).
Proof.
  split.
  - intros response Hget. unfold stored, _scan_domain. rewrite Hget.
    destruct (PyStr.contains _ _); [|by eexists].
    destruct (BeautifulSoup w (text response)) as [soup|[msg|msg]];
      [by eexists..|by split].
  - split.
    + intros (result & Hscan & Hst).
      destruct (session_get w url) as [response|[msg|msg]] eqn:Hget.
      * by destruct (scan_response_active w url response result Hget Hscan)
          as [Ha _]; rewrite Ha in Hst.
      * by exists msg.
      * unfold _scan_domain in Hscan. by rewrite Hget in Hscan.
    + intros [msg Hget]. unfold _scan_domain. rewrite Hget.
      by eexists.
Qed.

Lemma any_response_is_active_witness :
  (∃ result,
     _scan_domain (serving 404 "text/html" None) "http://a.onion"
     = Return result
     ∧ status result = "active"
     ∧ response_code result = Some 404%Z)
  ∧ ((∃ result,
        _scan_domain offline "http://a.onion" = Return result
        ∧ status result = "inactive")
     ↔ ∃ msg, session_get offline "http://a.onion"
              = Raise (RequestException msg)).
Proof.
  split.
  - exact (proj1 (any_response_is_active (serving 404 "text/html" None)
                    "http://a.onion") _ eq_refl).
  - exact (proj2 (any_response_is_active offline "http://a.onion")).
Defined.

(** ** The pool: invariant *)

Lemma size_list_to_set_le (l : list string) :
  size (list_to_set l : gset string) ≤ length l.
Proof.
  induction l as [|x l IH].
  - by rewrite list_to_set_nil, size_empty.
  - rewrite list_to_set_cons. cbn [length]. destruct (decide (x ∈ (list_to_set l : gset string))) as [Hin|Hin].
    + rewrite (subseteq_union_1_L (C:=gset string))
        by (by apply singleton_subseteq_l).
      lia.
    + rewrite size_union by (by apply disjoint_singleton_l).
      rewrite size_singleton. lia.
Qed.

Lemma holding_insert (ws : list wstate) (i : nat) (st st' : wstate) :
  ws !! i = Some st →
  holding (<[i:=st']> ws) ++ held st ≡ₚ held st' ++ holding ws.
Proof.
  intros Hi. unfold holding.
  rewrite insert_take_drop by (by eapply lookup_lt_Some).
  rewrite <- (take_drop_middle ws i st Hi) at 3.
  rewrite !bind_app, !bind_cons.
  generalize (take i ws ≫= held) (drop (S i) ws ≫= held) (held st) (held st').
  intros a b c d. solve_Permutation.
Qed.

Lemma holding_all_exited (ws : list wstate) :
  all_exited ws = true → holding ws = [].
Proof.
  unfold all_exited, holding. induction ws as [|[] ws IH]; simpl; try done.
Qed.

Lemma all_exited_Forall (ws : list wstate) :
  all_exited ws = true ↔ Forall (λ st, st = WExit) ws.
Proof.
  unfold all_exited. induction ws as [|st ws IH]; simpl.
  - split; [constructor|done].
  - rewrite andb_true_iff, IH, Forall_cons. by destruct st; intuition.
Qed.

Lemma Exists_insert_inv {A} (P : A → Prop) (l : list A) (i : nat) (x : A) :
  Exists P (<[i:=x]> l) → P x ∨ Exists P l.
Proof.
  revert i. induction l as [|y l IH]; intros [|i]; simpl;
    rewrite ?Exists_cons; try tauto.
  intros [?|?%IH]; tauto.
Qed.

Lemma held_in_holding (ws : list wstate) (i : nat) (d : string) :
  ws !! i = Some (WScan d) → d ∈ holding ws.
Proof.
  intros Hi. unfold holding. apply list_elem_of_bind.
  exists (WScan d). split; [apply list_elem_of_here|].
  by eapply list_elem_of_lookup_2.
Qed.

Lemma all_stored (targets done : list string) (p : Pool) :
  targets ≡ₚ done ++ holding (workers p) ++ queue (self p) →
  dom (results (self p)) =@{gset string} list_to_set done →
  length targets ≤ size (results (self p)) →
  queue (self p) = [] ∧ holding (workers p) = [].
Proof.
  intros Hperm Hdom Hsize. apply Permutation_length in Hperm.
  rewrite !length_app in Hperm.
  rewrite <- (size_dom (D:=gset string)), Hdom in Hsize.
  pose proof (size_list_to_set_le done).
  split; apply nil_length_inv; lia.
Qed.

Lemma past_loop_inv (p : Pool) :
  past_loop p ↔ main p = MSave ∨ main p = MReturn true ∨ main p = MReturn false.
Proof.
  unfold past_loop. split.
  - intros [?|[[] ?]]; auto.
  - intros [?|[?|?]]; eauto.
Qed.

Lemma inv_main_step (targets done : list string) (w : World) (p p' : Pool) :
  pool_inv targets done p → main_step w p = Some p' →
  pool_inv targets done p'.
Proof.
  intros [Hperm Hdom Htot Hproc Hpast Hexit Hret] Hstep.
  unfold main_step in Hstep. rewrite past_loop_inv in Hpast.
  destruct (main p) as [k|k|k| |r] eqn:Hm; simplify_eq;
    split; rewrite ?past_loop_inv; cbn [self workers main]; try done.
  - intros k' Hk'. destruct (k <? total_count (self p));
      destruct Hk' as [?|[?|?]]; simplify_eq. apply Hproc; auto.
  - destruct (k <? total_count (self p)) eqn:Hlt.
    + intros [?|[?|?]]; simplify_eq.
    + intros _. apply Nat.ltb_ge in Hlt.
      apply (all_stored targets done); [done..|].
      rewrite <- Htot. etrans; [done|]. apply Hproc. auto.
  - by destruct (k <? total_count (self p)).
  - intros k' Hk'. assert (k ≤ size (results (self p))) by (apply Hproc; auto).
    destruct Hk' as [?|[?|?]]; simplify_eq.
    destruct (k <? size (results (self p))); lia.
  - intros [?|[?|?]]; simplify_eq.
  - intros k' Hk'.
    destruct (queue_empty (self p) && all_exited (workers p));
      destruct Hk' as [?|[?|?]]; simplify_eq. apply Hproc; auto.
  - destruct (queue_empty (self p) && all_exited (workers p)) eqn:Hc.
    + intros _. apply andb_true_iff in Hc as [Hq He]. split.
      * unfold queue_empty in Hq. by destruct (queue (self p)).
      * by apply holding_all_exited.
    + intros [?|[?|?]]; simplify_eq.
  - by destruct (queue_empty (self p) && all_exited (workers p)).
  - intros k' [?|[?|?]]; simplify_eq.
  - intros _. apply Hpast. by left.
Qed.

Lemma worker_step_scan (w : World) (d : string) (s s' : Scanner) (st' : wstate) :
  worker_step w (WScan d) s = Some (st', s') →
  st' = WGet ∧ queue s' = queue s ∧ total_count s' = total_count s
  ∧ threads s' = threads s
  ∧ ∃ v, results s' = <[d:=v]> (results s).
Proof.
  unfold worker_step. destruct (_scan_domain w d) as [result|e];
    intros ?; simplify_eq.
  - destruct (bool_decide (status result = "active")); cbn; eauto 10.
  - cbn. eauto 10.
Qed.

Lemma size_insert_le {A} (m : gmap string A) (d : string) (v : A) :
  size m ≤ size (<[d:=v]> m).
Proof. rewrite map_size_insert. destruct (m !! d); simpl; lia. Qed.

Lemma inv_worker_step (targets done : list string) (w : World) (p : Pool)
    (i : nat) (st st' : wstate) (s' : Scanner) :
  pool_inv targets done p →
  workers p !! i = Some st →
  worker_step w st (self p) = Some (st', s') →
  pool_inv targets (done ++ held st)
    {| self := s'; workers := <[i:=st']> (workers p); main := main p |}.
Proof.
  intros [Hperm Hdom Htot Hproc Hpast Hexit Hret] Hi Hstep.
  pose proof (holding_insert (workers p) i st st' Hi) as Hhold.
  rewrite past_loop_inv in Hpast.
  destruct st as [|d|].
  - (* queue.get *)
    cbn [worker_step] in Hstep. cbn [held app] in *.
    rewrite app_nil_r in Hhold. rewrite app_nil_r.
    destruct (queue (self p)) as [|d q] eqn:Hq; simplify_eq;
      split; rewrite ?past_loop_inv;
      cbn [self workers main set_queue queue results total_count]; try done.
    + by rewrite Hhold, Hq.
    + intros Hp. destruct (Hpast Hp) as [_ Hh]. split; [done|].
      rewrite Hh in Hhold. cbn [held app] in Hhold.
      by apply Permutation_nil_r in Hhold.
    + rewrite Hperm, Hhold. cbn [held app].
      by rewrite <- !Permutation_middle.
    + intros Hp. by destruct (Hpast Hp).
    + intros [?|He]%Exists_insert_inv; [done|]. by apply Hexit in He.
  - (* the scan and the store *)
    apply worker_step_scan in Hstep as (-> & Hq & Ht & _ & v & Hr).
    cbn [held app] in *.
    assert (d ∈ holding (workers p)) as Hd by by eapply held_in_holding.
    split; rewrite ?past_loop_inv; cbn [self workers main]; try done.
    + rewrite Hq, Hperm, <- Hhold. rewrite <- !app_assoc.
      apply Permutation_app_head. cbn [app].
      by rewrite <- !Permutation_middle.
    + rewrite Hr, dom_insert_L, Hdom, list_to_set_snoc_L.
      apply (comm_L (∪)).
    + by rewrite Ht.
    + intros k Hk. rewrite Hr. etrans; [by apply Hproc|].
      apply size_insert_le.
    + intros Hp. destruct (Hpast Hp) as [_ Hh]. rewrite Hh in Hd.
      by apply not_elem_of_nil in Hd.
    + rewrite Hq. intros [?|He]%Exists_insert_inv; [done|]. by apply Hexit.
  - done.
Qed.

Lemma inv_turn (targets done : list string) (p : Pool) (tw : tid * World) :
  pool_inv targets done p →
  pool_inv targets (done ++ turn_write p tw.1) (turn p tw).
Proof.
  intros Hinv. destruct tw as [[|i] w]; unfold turn; cbn [fst snd].
  - cbn [turn_write]. rewrite app_nil_r.
    destruct (thread_step w Main p) as [p'|] eqn:Hstep; [|done].
    by apply (inv_main_step _ _ w p).
  - cbn [turn_write thread_step].
    destruct (workers p !! i) as [st|] eqn:Hi; cbn [mbind option_bind];
      [|by rewrite app_nil_r].
    destruct (worker_step w st (self p)) as [[st' s']|] eqn:Hstep;
      cbn [mbind option_bind default from_option id].
    + replace (match st with WScan domain => [domain] | _ => [] end)
        with (held st) by by destruct st.
      by apply (inv_worker_step _ _ w).
    + destruct st as [|d|].
      * cbn in Hstep. by destruct (queue (self p)).
      * cbn in Hstep. by destruct (_scan_domain w d).
      * by rewrite app_nil_r.
Qed.

Lemma inv_run (targets : list string) (sc : sched) (done : list string)
    (p : Pool) :
  pool_inv targets done p →
  pool_inv targets (done ++ writes sc p) (run sc p).
Proof.
  revert done p. induction sc as [|tw sc IH]; intros done p Hinv.
  - cbn. by rewrite app_nil_r.
  - cbn [writes run foldl]. rewrite app_assoc. apply IH. by apply inv_turn.
Qed.

Lemma inv_spawn (s : Scanner) :
  results s = ∅ → total_count s = length (queue s) →
  pool_inv (queue s) [] (spawn s).
Proof.
  intros Hr Ht. split; cbn [spawn self workers main]; try done.
  - assert (holding (replicate (threads s) WGet) = []) as ->; [|done].
    unfold holding. induction (threads s) as [|n IH]; [done|].
    cbn [replicate]. by rewrite bind_cons, IH.
  - by rewrite Hr, dom_empty_L.
  - intros k [?|[?|?]]; simplify_eq. lia.
  - rewrite past_loop_inv. cbn [main]. intros [?|[?|?]]; simplify_eq.
  - intros He. apply Exists_exists in He as (st & Hin & ->).
    by apply elem_of_replicate in Hin as [? _].
Qed.

(** ** The pool: the workers finish *)

Lemma wcost_insert (ws : list wstate) (i : nat) (st st' : wstate) :
  ws !! i = Some st →
  sum_list_with wcost (<[i:=st']> ws) + wcost st
  = sum_list_with wcost ws + wcost st'.
Proof.
  intros Hi. rewrite insert_take_drop by (by eapply lookup_lt_Some).
  rewrite <- (take_drop_middle ws i st Hi) at 3.
  rewrite !sum_list_with_app. cbn [sum_list_with]. lia.
Qed.

Lemma worker_turn_progress (w : World) (p : Pool) (i : nat) (st : wstate) :
  workers p !! i = Some st → st ≠ WExit →
  work_left (turn p (Worker i, w)) < work_left p
  ∧ length (workers (turn p (Worker i, w))) = length (workers p).
Proof.
  intros Hi Hst. unfold turn, thread_step. cbn [fst snd]. rewrite Hi.
  cbn [mbind option_bind].
  destruct (worker_step w st (self p)) as [[st' s']|] eqn:Hstep.
  - cbn [mbind option_bind default from_option id]. unfold work_left.
    cbn [self workers]. rewrite length_insert. split; [|done].
    pose proof (wcost_insert (workers p) i st st' Hi) as Hc.
    destruct st as [|d|]; [| |done].
    + cbn [worker_step] in Hstep.
      destruct (queue (self p)) as [|d q] eqn:Hq; simplify_eq;
        cbn [wcost set_queue queue length] in *; rewrite ?Hq;
        cbn [length]; lia.
    + apply worker_step_scan in Hstep as (-> & -> & _).
      cbn [wcost] in *. lia.
  - destruct st as [|d|]; [| |done]; cbn in Hstep.
    + by destruct (queue (self p)).
    + by destruct (_scan_domain w d).
Qed.

Lemma workers_finish (w : World) (targets : list string) (m : nat) :
  ∀ (done : list string) (p : Pool),
    work_left p ≤ m → pool_inv targets done p → workers p ≠ [] →
    ∃ sc, pool_complete (run sc p).
Proof.
  induction m as [|m IH]; intros done p Hm Hinv Hne.
  - exists []. cbn. unfold work_left in Hm. split.
    + apply nil_length_inv. lia.
    + assert (sum_list_with wcost (workers p) = 0) as Hs by lia.
      clear -Hs. induction (workers p) as [|st ws IHw]; [done|].
      cbn in Hs. constructor; [by destruct st|]. apply IHw. lia.
  - destruct (decide (Forall (λ st, st = WExit) (workers p))) as [Hall|Hex].
    + exists []. cbn. split; [|done]. apply (inv_exit _ _ _ Hinv).
      destruct (workers p) as [|st ws]; [done|].
      apply Exists_cons_hd. by apply Forall_cons_1 in Hall as [? _].
    + apply not_Forall_Exists in Hex; [|apply _].
      apply Exists_exists in Hex as (st & Hin & Hst).
      apply list_elem_of_lookup_1 in Hin as [i Hi].
      destruct (worker_turn_progress w p i st Hi Hst) as [Hlt Hlen].
      destruct (IH (done ++ turn_write p (Worker i)) (turn p (Worker i, w)))
        as [sc Hsc].
      * lia.
      * by apply (inv_turn _ _ _ (Worker i, w)).
      * intros Hnil. rewrite Hnil in Hlen. destruct (workers p); by simplify_eq.
      * by exists ((Worker i, w) :: sc).
Qed.

(** ** The pool: [start] leaves its loop *)

Lemma pool_complete_check (p : Pool) :
  pool_complete p ↔ queue_empty (self p) && all_exited (workers p) = true.
Proof.
  unfold pool_complete, queue_empty.
  rewrite andb_true_iff, all_exited_Forall.
  destruct (queue (self p)); intuition congruence.
Qed.

Lemma main_turn (w : World) (p : Pool) :
  self (turn p (Main, w)) = self p
  ∧ workers (turn p (Main, w)) = workers p
  ∧ main (turn p (Main, w))
    = match main p with
      | MWhile k => if k <? total_count (self p) then MLen k else MSave
      | MLen k =>
          MCheck (if k <? size (results (self p))
                  then size (results (self p)) else k)
      | MCheck k =>
          if queue_empty (self p) && all_exited (workers p)
          then MSave else MWhile k
      | MSave => MReturn true
      | MReturn r => MReturn r
      end.
Proof.
  unfold turn, thread_step, main_step. cbn [fst snd].
  destruct (main p) eqn:Hm; cbn [default from_option id self workers main];
    auto.
Qed.

Lemma main_finishes (w : World) (p : Pool) :
  pool_complete p → main p ≠ MReturn false →
  past_loop (run (replicate 3 (Main, w)) p)
  ∧ main (run (replicate 4 (Main, w)) p) = MReturn true.
Proof.
  intros Hc Hret. apply pool_complete_check in Hc.
  change (replicate 4 (Main, w)) with (replicate 3 (Main, w) ++ [(Main, w)]).
  unfold run. rewrite foldl_app. cbn [replicate foldl].
  set (p1 := turn p (Main, w)). set (p2 := turn p1 (Main, w)).
  set (p3 := turn p2 (Main, w)). set (p4 := turn p3 (Main, w)).
  destruct (main_turn w p) as (Hs1 & Hw1 & Hm1). fold p1 in Hs1, Hw1, Hm1.
  destruct (main_turn w p1) as (Hs2 & Hw2 & Hm2). fold p2 in Hs2, Hw2, Hm2.
  destruct (main_turn w p2) as (Hs3 & Hw3 & Hm3). fold p3 in Hs3, Hw3, Hm3.
  destruct (main_turn w p3) as (Hs4 & Hw4 & Hm4). fold p4 in Hs4, Hw4, Hm4.
  rewrite Hs3, Hw3, Hs2, Hw2, Hs1, Hw1 in Hm4.
  rewrite Hs2, Hw2, Hs1, Hw1 in Hm3. rewrite Hs1, Hw1 in Hm2.
  rewrite past_loop_inv, Hm4, Hm3, Hm2, Hm1.
  destruct (main p) as [k|k|k| |[]]; try done;
    repeat first
      [ rewrite Hc
      | progress lazy beta iota
      | match goal with
        | |- context [?a <? ?b] => destruct (a <? b)
        end ];
    auto.
Qed.

(** ** The pool: what a run of [start] guarantees *)

Lemma start_spawned (f : File) (n : nat) (p : Pool) :
  start f (init n) = Spawned p →
  p = spawn (self p) ∧ results (self p) = ∅
  ∧ total_count (self p) = length (queue (self p))
  ∧ length (workers p) = n.
Proof.
  destruct f as [|e|content]; [by cbn..|]. unfold start.
  destruct (load_readable content (init n)) as (new & Hl & _).
  rewrite Hl. cbn [negb]. intros ?; simplify_eq.
  cbn [spawn self workers set_queue set_total_count init results queue
       total_count threads app].
  by rewrite length_replicate.
Qed.

Lemma start_inv (f : File) (n : nat) (p : Pool) (sc : sched) :
  start f (init n) = Spawned p →
  pool_inv (queue (self p)) (writes sc p) (run sc p).
Proof.
  intros (Hp & Hr & Ht & _)%start_spawned.
  apply (inv_run _ sc []). rewrite Hp. by apply inv_spawn.
Qed.

Lemma finished_inv (targets done : list string) (p : Pool) :
  pool_inv targets done p → pool_complete p ∨ past_loop p →
  targets ≡ₚ done
  ∧ ∀ d, d ∈ targets ↔ is_Some (results (self p) !! d).
Proof.
  intros Hinv Hfin.
  assert (queue (self p) = [] ∧ holding (workers p) = []) as [Hq Hh].
  { destruct Hfin as [[Hq Hw]|Hp]; [|by apply (inv_past _ _ _ Hinv)].
    split; [done|]. by apply holding_all_exited, all_exited_Forall. }
  pose proof (inv_perm _ _ _ Hinv) as Hperm.
  rewrite Hq, Hh, !app_nil_r in Hperm. split; [done|].
  intros d. rewrite <- elem_of_dom, (inv_dom _ _ _ Hinv), elem_of_list_to_set.
  by rewrite Hperm.
Qed.

(** C1. When the targets loaded by [start] are distinct, then once the
    pool is complete (the queue is empty and every worker is out), or once
    [start] has left its progress loop, the keys of the results dictionary
    are exactly the targets: every target has a result, no other key has
    one, the dictionary has as many entries as there are targets, and
    along the run each target was stored exactly once. (The empty list of
    targets is not excluded.) *)
Theorem results_exactly_targets
    (f : File) (n : nat) (p : Pool) (sc : sched) :
  start f (init n) = Spawned p →
  NoDup (queue (self p)) →
  pool_complete (run sc p) ∨ past_loop (run sc p) →
  dom (results (self (run sc p))) =@{gset string} list_to_set (queue (self p))
  ∧ (∀ d, d ∈ queue (self p) ↔ is_Some (results (self (run sc p)) !! d))
  ∧ size (results (self (run sc p))) = length (queue (self p))
  ∧ writes sc p ≡ₚ queue (self p).
Proof.
  intros Hstart Hnd Hfin.
  pose proof (start_inv f n p sc Hstart) as Hinv.
  destruct (finished_inv _ _ _ Hinv Hfin) as [Hperm Hin].
  assert (dom (results (self (run sc p)))
          =@{gset string} list_to_set (queue (self p))) as Hdom.
  { rewrite (inv_dom _ _ _ Hinv). apply set_eq. intros d.
    by rewrite !elem_of_list_to_set, Hperm. }
  split; [done|]. split; [done|]. split; [|done].
  rewrite <- (size_dom (D:=gset string)), Hdom. by apply size_list_to_set.
Qed.

Lemma results_exactly_targets_witness :
  dom (results (self (run two_workers_run (pool_of two_targets 2))))
  =@{gset string} list_to_set (queue (self (pool_of two_targets 2)))
  ∧ (∀ d, d ∈ queue (self (pool_of two_targets 2))
          ↔ is_Some (results (self (run two_workers_run
                                      (pool_of two_targets 2))) !! d))
  ∧ size (results (self (run two_workers_run (pool_of two_targets 2))))
    = length (queue (self (pool_of two_targets 2)))
  ∧ writes two_workers_run (pool_of two_targets 2)
    ≡ₚ queue (self (pool_of two_targets 2)).
Proof.
  apply (results_exactly_targets (Readable two_targets) 2).
  - reflexivity.
  - refine (bool_decide_unpack _ _). vm_compute. exact I.
  - left. split; [reflexivity|]. vm_compute. repeat constructor.
Defined.

(** C6. When [_scan_domain] raises for the target a worker holds, the
    exception is not a request exception, and the worker's turn ends
    normally: it stores under the target the dictionary with status
    "error" and the text of the exception, and goes back to the queue.
    The queue, the other workers and the thread of [start] are as before,
    and the workers can still empty the queue: some continuation of the
    run completes the pool with a result for every loaded target. *)
Theorem unexpected_error_recorded
    (f : File) (n : nat) (p0 : Pool) (sc : sched) (w : World) (i : nat)
    (url : string) (e : exn) :
  start f (init n) = Spawned p0 →
  workers (run sc p0) !! i = Some (WScan url) →
  _scan_domain w url = Raise e →
  (∃ msg, e = OtherException msg)
  ∧ ∃ p',
      thread_step w (Worker i) (run sc p0) = Some p'
      ∧ results (self p') !! url = Some (ErrorDict (str_exn e))
      ∧ result_status (ErrorDict (str_exn e)) = "error"
      ∧ workers p' = <[i:=WGet]> (workers (run sc p0))
      ∧ queue (self p') = queue (self (run sc p0))
      ∧ main p' = main (run sc p0)
      ∧ ∃ sc',
          pool_complete (run sc' p')
          ∧ ∀ d, d ∈ queue (self p0) →
                 is_Some (results (self (run sc' p')) !! d).
Proof.
  intros Hstart Hi Hscan. split.
  { unfold _scan_domain, scan_except in Hscan.
    repeat match type of Hscan with
           | context [match ?x with _ => _ end] => destruct x
           end; simplify_eq; eauto. }
  pose proof (start_inv f n p0 sc Hstart) as Hinv.
  apply (inv_turn _ _ _ (Worker i, w)) in Hinv.
  set (p := run sc p0) in *.
  assert (turn p (Worker i, w)
          = {| self := set_results
                         (<[url:=ErrorDict (str_exn e)]> (results (self p)))
                         (self p);
               workers := <[i:=WGet]> (workers p); main := main p |}) as Ht.
  { unfold turn, thread_step. cbn [fst snd]. rewrite Hi.
    cbn [mbind option_bind worker_step]. by rewrite Hscan. }
  eexists. split.
  { unfold thread_step. rewrite Hi. cbn [mbind option_bind worker_step].
    rewrite Hscan. reflexivity. }
  rewrite Ht in Hinv. cbn [self workers main set_results results queue].
  split; [apply lookup_insert_eq|]. do 4 (split; [done|]).
  destruct (workers_finish w _ (work_left _) _ _ (le_n _) Hinv) as [sc' Hc].
  { cbn [workers]. intros Hnil. apply (f_equal length) in Hnil.
    rewrite length_insert in Hnil. apply lookup_lt_Some in Hi.
    cbn in Hnil. lia. }
  exists sc'. split; [done|]. intros d Hd.
  apply (inv_run _ sc') in Hinv.
  by apply (finished_inv _ _ _ Hinv (or_introl Hc)).
Qed.

Lemma unexpected_error_recorded_witness :
  ∃ p',
    thread_step broken (Worker 0)
      (run [(Worker 0, offline)] (pool_of one_target 1)) = Some p'
    ∧ results (self p') !! "http://a.onion" = Some (ErrorDict "boom").
Proof.
  destruct (unexpected_error_recorded (Readable one_target) 1
              (pool_of one_target 1) [(Worker 0, offline)] broken 0
              "http://a.onion" (OtherException "boom"))
    as (_ & p' & Hstep & Hres & _); [reflexivity..|].
  exists p'. split; [exact Hstep|exact Hres].
Defined.

(** ** [start]: the setup errors *)

Lemma run_never_returns_false (targets done : list string) (sc : sched)
    (p : Pool) :
  pool_inv targets done p → main (run sc p) ≠ MReturn false.
Proof. intros Hinv. apply (inv_run _ sc) in Hinv. apply (inv_ret _ _ _ Hinv). Qed.

Lemma run_app (sc1 sc2 : sched) (p : Pool) :
  run (sc1 ++ sc2) p = run sc2 (run sc1 p).
Proof. unfold run. apply foldl_app. Qed.

(** C7, as stated: the missing file would be the only input on which
    [start] returns [False]. A file that is there and cannot be read
    makes it return [False] as well. *)
Lemma missing_file_not_only_abort :
  ¬ (∀ (f : File) (n : nat) (ret : bool) (s : Scanner),
       start f (init n) = Aborted ret s → f = Missing).
Proof.
  intros H.
  specialize (H (Unreadable (OtherException "Permission denied")) 10
                false (init 10) eq_refl).
  discriminate H.
Qed.

(** C7, amended. [start] returns [False] exactly when the input file is
    missing or reading it raises; it does so before any worker is made
    and leaves the scanner as [__init__] made it, with no result. When
    the file is read, no run of the pool makes [start] return [False],
    and with at least one worker some run makes it return [True]. *)
Theorem start_aborts_iff_file_not_read (f : File) (n : nat) :
  (f = Missing →
   start f (init n) = Aborted false (init n) ∧ results (init n) = ∅)
  ∧ ((∃ ret s, start f (init n) = Aborted ret s)
     ↔ f = Missing ∨ ∃ e, f = Unreadable e)
  ∧ (∀ ret s, start f (init n) = Aborted ret s →
              ret = false ∧ s = init n ∧ results s = ∅)
  ∧ (∀ p, start f (init n) = Spawned p →
          (∀ sc, main (run sc p) ≠ MReturn false)
          ∧ (1 ≤ n → ∀ w : World, ∃ sc, main (run sc p) = MReturn true)).
Proof.
  split; [by intros ->|]. split; [|split].
  - split.
    + intros (ret & s & Hs). destruct f as [|e|content]; eauto.
      unfold start in Hs.
      destruct (load_readable content (init n)) as (new & Hl & _).
      by rewrite Hl in Hs.
    + intros [->|[e ->]]; by do 2 eexists.
  - intros ret s Hs. destruct f as [|e|content].
    + cbn in Hs. by simplify_eq.
    + cbn in Hs. by simplify_eq.
    + unfold start in Hs.
      destruct (load_readable content (init n)) as (new & Hl & _).
      by rewrite Hl in Hs.
  - intros p Hstart. split.
    + intros sc. pose proof (start_inv f n p sc Hstart) as Hinv.
      apply (inv_ret _ _ _ Hinv).
    + intros Hn w.
      pose proof (start_inv f n p [] Hstart) as Hinv. cbn in Hinv.
      destruct (workers_finish w _ (work_left p) _ _ (le_n _) Hinv)
        as [sc Hc].
      { apply start_spawned in Hstart as (_ & _ & _ & Hlen).
        intros Hnil. rewrite Hnil in Hlen. cbn in Hlen. lia. }
      exists (sc ++ replicate 4 (Main, w)). rewrite run_app.
      apply main_finishes; [done|].
      apply (run_never_returns_false _ _ sc _ Hinv).
Qed.

Lemma start_aborts_iff_file_not_read_witness :
  start Missing (init 10) = Aborted false (init 10)
  ∧ results (init 10) = ∅.
Proof.
  exact (proj1 (start_aborts_iff_file_not_read Missing 10) eq_refl).
Defined.

(** ** [start]: when the report is written *)

(** C8, as stated: [start] would go on to the report only when every
    worker is out. With one target and one worker, [start] reads one
    result out of one and leaves its loop while the worker has not been
    back to the queue. *)
Lemma report_written_before_worker_exits :
  start (Readable one_target) (init 1) = Spawned (pool_of one_target 1)
  ∧ main (run early_report_run (pool_of one_target 1)) = MSave
  ∧ workers (run early_report_run (pool_of one_target 1)) = [WGet]
  ∧ ¬ (past_loop (run early_report_run (pool_of one_target 1))
       ↔ pool_complete (run early_report_run (pool_of one_target 1))).
Proof.
  split; [reflexivity|]. split; [reflexivity|]. split; [reflexivity|].
  intros [H _]. destruct H as [_ Hw].
  - left. reflexivity.
  - change (Forall (λ st, st = WExit) [WGet]) in Hw.
    apply Forall_cons_1 in Hw as [Hw _]. discriminate Hw.
Qed.

Lemma turn_workers_length (p : Pool) (tw : tid * World) :
  length (workers (turn p tw)) = length (workers p).
Proof.
  destruct tw as [[|i] w].
  - by destruct (main_turn w p) as (_ & -> & _).
  - unfold turn, thread_step. cbn [fst snd].
    destruct (workers p !! i) as [st|]; cbn [mbind option_bind]; [|done].
    destruct (worker_step w st (self p)) as [[st' s']|];
      cbn [mbind option_bind default from_option id workers]; [|done].
    apply length_insert.
Qed.

Lemma run_workers_length (sc : sched) (p : Pool) :
  length (workers (run sc p)) = length (workers p).
Proof.
  revert p. induction sc as [|tw sc IH]; intros p; [done|].
  cbn [run foldl]. fold (run sc (turn p tw)).
  by rewrite IH, turn_workers_length.
Qed.

Lemma holding_nil_Forall (ws : list wstate) :
  holding ws = [] ↔ Forall (λ st, st = WGet ∨ st = WExit) ws.
Proof.
  unfold holding. induction ws as [|st ws IH].
  - split; [constructor|done].
  - rewrite bind_cons, Forall_cons, <- IH.
    destruct st; cbn [held app]; intuition congruence.
Qed.

(** C8, amended. For any number of workers and any schedule: [start]
    leaves its progress loop in a turn exactly when it stands at the loop
    test with a count of results that has reached the count of targets,
    or at the worker test with the queue empty and every worker out. Once
    the pool is complete, three turns of [start] take it past the loop.
    Whenever [start] is past the loop, the queue is empty and no worker
    holds a target; a worker may still be about to test the queue. With
    at least one worker, every run can be continued to a complete pool. *)
Theorem report_written_after_loop
    (f : File) (n : nat) (p : Pool) (sc : sched) (w : World) :
  start f (init n) = Spawned p →
  (past_loop (run sc p) →
   queue (self (run sc p)) = []
   ∧ Forall (λ st, st = WGet ∨ st = WExit) (workers (run sc p)))
  ∧ (pool_complete (run sc p) →
     past_loop (run (sc ++ replicate 3 (Main, w)) p))
  ∧ (¬ past_loop (run sc p) →
     (main (turn (run sc p) (Main, w)) = MSave
      ↔ (∃ k, main (run sc p) = MWhile k
              ∧ total_count (self (run sc p)) ≤ k)
        ∨ (∃ k, main (run sc p) = MCheck k ∧ pool_complete (run sc p))))
  ∧ (1 ≤ n → ∃ sc', pool_complete (run (sc ++ sc') p)).
Proof.
  intros Hstart. pose proof (start_inv f n p sc Hstart) as Hinv.
  split; [|split; [|split]].
  - intros Hp. destruct (inv_past _ _ _ Hinv Hp) as [Hq Hh].
    split; [done|]. by apply holding_nil_Forall.
  - intros Hc. rewrite run_app. apply main_finishes; [done|].
    apply (inv_ret _ _ _ Hinv).
  - intros Hnp. rewrite past_loop_inv in Hnp.
    destruct (main_turn w (run sc p)) as (_ & _ & ->).
    setoid_rewrite pool_complete_check.
    destruct (main (run sc p)) as [k|k|k| |[]]; try tauto.
    + destruct (k <? total_count (self (run sc p))) eqn:Hlt.
      * apply Nat.ltb_lt in Hlt. split; [done|].
        intros [(k' & ? & ?)|(k' & ? & _)]; simplify_eq. lia.
      * apply Nat.ltb_ge in Hlt. split; [|done]. intros _. left. eauto.
    + split; [done|]. intros [(k' & ? & ?)|(k' & ? & _)]; simplify_eq.
    + destruct (queue_empty (self (run sc p))
                && all_exited (workers (run sc p))).
      * split; [|done]. intros _. right. eauto.
      * split; [done|]. intros [(k' & ? & ?)|(k' & ? & ?)]; simplify_eq.
  - intros Hn.
    destruct (workers_finish w _ (work_left (run sc p)) _ _ (le_n _) Hinv)
      as [sc' Hc].
    { apply start_spawned in Hstart as (_ & _ & _ & Hlen).
      intros Hnil. apply (f_equal length) in Hnil.
      rewrite run_workers_length, Hlen in Hnil. cbn in Hnil. lia. }
    exists sc'. by rewrite run_app.
Qed.

Lemma report_written_after_loop_witness :
  queue (self (run early_report_run (pool_of one_target 1))) = []
  ∧ Forall (λ st, st = WGet ∨ st = WExit)
           (workers (run early_report_run (pool_of one_target 1))).
Proof.
  refine (proj1 (report_written_after_loop (Readable one_target) 1
                   (pool_of one_target 1) early_report_run offline _) _).
  - reflexivity.
  - left. reflexivity.
Defined.

(** ** The report *)

Lemma string_app_assoc (a b c : string) : (a +:+ b) +:+ c = a +:+ b +:+ c.
Proof.
  induction a as [|x a IH]; [done|].
  change (String x ((a +:+ b) +:+ c) = String x (a +:+ b +:+ c)).
  by rewrite IH.
Qed.

Lemma string_app_nil_r (a : string) : a +:+ "" = a.
Proof.
  induction a as [|x a IH]; [done|].
  change (String x (a +:+ "") = String x a). by rewrite IH.
Qed.

Lemma foldl_write_active (items : list (string * Result)) (f : string) :
  foldl write_active f items = f +:+ join (item_text <$> group "active" items).
Proof.
  revert f. induction items as [|[d r] items IH]; intros f.
  - cbn. by rewrite string_app_nil_r.
  - cbn [foldl]. rewrite IH. unfold group, write_active, item_text.
    cbn [fst snd]. rewrite filter_cons. cbn [fst snd].
    destruct r as [r|e]; cbn [result_status].
    + destruct (decide (status r = "active")) as [Ha|Ha].
      * rewrite (bool_decide_eq_true_2 _ Ha). cbn [fmap list_fmap join foldr].
        cbn [fst snd]. rewrite (bool_decide_eq_true_2 _ Ha).
        by rewrite string_app_assoc.
      * by rewrite (bool_decide_eq_false_2 _ Ha).
    + rewrite decide_False by done. by rewrite bool_decide_eq_false_2 by done.
Qed.

Lemma foldl_write_inactive (items : list (string * Result)) (f : string) :
  foldl write_inactive f items
  = f +:+ join (item_text <$> group "inactive" items).
Proof.
  revert f. induction items as [|[d r] items IH]; intros f.
  - cbn. by rewrite string_app_nil_r.
  - cbn [foldl]. rewrite IH. unfold group, write_inactive, item_text.
    cbn [fst snd]. rewrite filter_cons. cbn [fst snd].
    destruct r as [r|e]; cbn [result_status].
    + destruct (decide (status r = "inactive")) as [Ha|Ha].
      * rewrite (bool_decide_eq_true_2 _ Ha). cbn [fmap list_fmap join foldr].
        cbn [fst snd]. rewrite (bool_decide_eq_true_2 _ Ha).
        rewrite bool_decide_eq_false_2 by (rewrite Ha; done).
        by rewrite string_app_assoc.
      * by rewrite (bool_decide_eq_false_2 _ Ha).
    + rewrite decide_False by done. by rewrite bool_decide_eq_false_2 by done.
Qed.

Lemma foldl_write_error (items : list (string * Result)) (f : string) :
  foldl write_error f items = f +:+ join (item_text <$> group "error" items).
Proof.
  revert f. induction items as [|[d r] items IH]; intros f.
  - cbn. by rewrite string_app_nil_r.
  - cbn [foldl]. rewrite IH. unfold group, write_error, item_text.
    cbn [fst snd]. rewrite filter_cons. cbn [fst snd].
    destruct r as [r|e]; cbn [result_status].
    + destruct (decide (status r = "error")) as [Ha|Ha].
      * rewrite (bool_decide_eq_true_2 _ Ha). cbn [fmap list_fmap join foldr].
        cbn [fst snd].
        rewrite !bool_decide_eq_false_2 by (rewrite Ha; done).
        done.
      * by rewrite (bool_decide_eq_false_2 _ Ha).
    + rewrite decide_True by done. rewrite bool_decide_eq_true_2 by done.
      cbn [fmap list_fmap join foldr]. cbn [fst snd].
      by rewrite string_app_assoc.
Qed.

Global Instance item_le_trans : Transitive item_le.
Proof. intros x y z. unfold item_le. apply transitivity. Qed.

Global Instance item_le_total : Total item_le.
Proof. intros x y. unfold item_le. apply total, _. Qed.

Lemma StronglySorted_filter {A} (R : relation A) (P : A → Prop)
    `{!∀ x, Decision (P x)} (l : list A) :
  StronglySorted R l → StronglySorted R (filter P l).
Proof.
  induction 1 as [|x l Hs IH Hx]; [constructor|].
  rewrite filter_cons. destruct (decide (P x)); [|done].
  constructor; [done|]. apply Forall_forall. intros y Hy.
  apply list_elem_of_filter in Hy as [_ Hy].
  by eapply Forall_forall in Hx.
Qed.

Lemma StronglySorted_strict (l : list (string * Result)) :
  StronglySorted item_le l → NoDup (l.*1) →
  StronglySorted (λ x y, (x.1 ≤ y.1)%string ∧ x.1 ≠ y.1) l.
Proof.
  induction 1 as [|x l Hs IH Hx]; [constructor|].
  rewrite fmap_cons. intros [Hnin Hnd]%NoDup_cons. constructor; [auto|].
  apply Forall_forall. intros y Hy. split.
  - by eapply Forall_forall in Hx.
  - intros Heq. apply Hnin. rewrite Heq. by apply list_elem_of_fmap_2.
Qed.

Lemma sorted_items_spec (m : gmap string Result) :
  StronglySorted (λ x y, (x.1 ≤ y.1)%string ∧ x.1 ≠ y.1) (sorted_items m)
  ∧ ∀ d r, (d, r) ∈ sorted_items m ↔ m !! d = Some r.
Proof.
  assert (sorted_items m ≡ₚ map_to_list m) as Hperm
    by apply merge_sort_Permutation.
  split.
  - apply StronglySorted_strict.
    + apply StronglySorted_merge_sort; apply _.
    + rewrite Hperm. apply NoDup_fst_map_to_list.
  - intros d r. rewrite Hperm. apply elem_of_map_to_list.
Qed.

Lemma group_texts (st : string) (g : string * Result → string)
    (items : list (string * Result)) :
  (∀ item, result_status item.2 = st → item_text item = g item) →
  join (item_text <$> group st items) = join (g <$> group st items).
Proof.
  intros Hg. f_equal. apply Forall_fmap_ext_1, Forall_forall.
  intros item [Hst _]%list_elem_of_filter. by apply Hg.
Qed.

(** C9. The text written by [_save_results] is the header, then the
    heading "## Active Sites" and one entry per target with status
    "active", then "## Inactive Sites" and one line per target with
    status "inactive", then "## Error Sites" and one entry per target
    with status "error". In each of the three groups the targets are in
    strictly increasing order, and the group holds exactly the targets of
    the results dictionary with that status. The entry of an active
    target gives its URL, response code, title, server, content type and
    number of links, each on a line of its own, and ends with an empty
    line; the entry of an inactive target is its URL line; the entry of
    an error target is its URL line and its error message. *)
Theorem report_groups_by_status (w : World) (s : Scanner) :
  let items := sorted_items (results s) in
  (_save_results w s).2
  = report_header w s
    +:+ ("## Active Sites" +:+ nl +:+ nl)
    +:+ join ((λ item,
                 match item.2 with
                 | Scan r =>
                     "URL: " +:+ item.1 +:+ nl +:+
                     "Response Code: "
                       +:+ PyStr.str_opt (pretty <$> response_code r)
                       +:+ nl +:+
                     "Title: " +:+ PyStr.str_opt (title r) +:+ nl +:+
                     "Server: " +:+ PyStr.str_opt (server r) +:+ nl +:+
                     "Content Type: " +:+ PyStr.str_opt (content_type r)
                       +:+ nl +:+
                     "Links: " +:+ pretty (links r) +:+ nl +:+ nl
                 | ErrorDict _ => ""
                 end) <$> group "active" items)
    +:+ ("## Inactive Sites" +:+ nl +:+ nl)
    +:+ join ((λ item, "URL: " +:+ item.1 +:+ nl) <$> group "inactive" items)
    +:+ ("## Error Sites" +:+ nl +:+ nl)
    +:+ join ((λ item,
                 match item.2 with
                 | ErrorDict e =>
                     "URL: " +:+ item.1 +:+ nl +:+ "Error: " +:+ e +:+ nl
                 | Scan _ => ""
                 end) <$> group "error" items)
  ∧ (∀ st,
       StronglySorted (λ x y, (x.1 ≤ y.1)%string ∧ x.1 ≠ y.1) (group st items)
       ∧ ∀ d r, (d, r) ∈ group st items
                ↔ results s !! d = Some r ∧ result_status r = st).
Proof.
  intros items. destruct (sorted_items_spec (results s)) as [Hsort Hin].
  fold items in Hsort, Hin. split.
  - unfold _save_results. cbn [snd]. fold items.
    rewrite foldl_write_error, foldl_write_inactive, foldl_write_active.
    match goal with
    | |- _ = _ +:+ _ +:+ join (?g1 <$> _) +:+ _ +:+ join (?g2 <$> _)
               +:+ _ +:+ join (?g3 <$> _) =>
        rewrite <- (group_texts "active" g1 items),
                <- (group_texts "inactive" g2 items),
                <- (group_texts "error" g3 items)
    end.
    + by rewrite !string_app_assoc.
    + intros [d [r|e]] Hst; cbn [snd result_status] in Hst; [|done].
      unfold item_text. cbn [fst snd].
      by rewrite !bool_decide_eq_false_2 by (by rewrite Hst).
    + intros [d [r|e]] Hst; cbn [snd result_status] in Hst; [|done].
      unfold item_text. cbn [fst snd].
      rewrite bool_decide_eq_false_2 by (by rewrite Hst).
      by rewrite (bool_decide_eq_true_2 _ Hst).
    + intros [d [r|e]] Hst; cbn [snd result_status] in Hst; [|done].
      unfold item_text. cbn [fst snd]. by rewrite (bool_decide_eq_true_2 _ Hst).
  - intros st. split.
    + by apply StronglySorted_filter.
    + intros d r. unfold group. rewrite list_elem_of_filter, Hin.
      cbn [snd]. tauto.
Qed.

Lemma report_groups_by_status_witness :
  (_save_results offline
     (self (run two_workers_run (pool_of two_targets 2)))).2
  = "# Onion Service Scan Results" +:+ nl +:+
    "# Total scanned: 2" +:+ nl +:+
    "# Active: 1" +:+ nl +:+
    "# Scan time: 1970-01-01 00:00:00" +:+ nl +:+ nl +:+
    "## Active Sites" +:+ nl +:+ nl +:+
    "URL: http://a.onion" +:+ nl +:+
    "Response Code: 404" +:+ nl +:+
    "Title: No title" +:+ nl +:+
    "Server: Unknown" +:+ nl +:+
    "Content Type: text/html" +:+ nl +:+
    "Links: 0" +:+ nl +:+ nl +:+
    "## Inactive Sites" +:+ nl +:+ nl +:+
    "## Error Sites" +:+ nl +:+ nl +:+
    "URL: http://b.onion" +:+ nl +:+
    "Error: boom" +:+ nl.
Proof.
  exact (proj1 (report_groups_by_status offline
                  (self (run two_workers_run (pool_of two_targets 2))))).
Defined.

(** * Part III: further properties of the scanner *)

(** ** Targets in flight *)

(** X1. At every point of every run, each loaded target is in exactly one
    place: stored (once per store made so far), held by one worker, or
    still on the queue; and the keys of the results dictionary are the
    targets stored so far. Nothing is lost, repeated or made up, also
    when the file has the same line twice. *)
Theorem targets_conserved (f : File) (n : nat) (p : Pool) (sc : sched) :
  start f (init n) = Spawned p →
  queue (self p)
  ≡ₚ writes sc p ++ holding (workers (run sc p)) ++ queue (self (run sc p))
  ∧ dom (results (self (run sc p))) =@{gset string} list_to_set (writes sc p).
Proof.
  intros Hstart. pose proof (start_inv f n p sc Hstart) as Hinv.
  split; [apply (inv_perm _ _ _ Hinv)|apply (inv_dom _ _ _ Hinv)].
Qed.

Lemma targets_conserved_witness :
  queue (self (pool_of two_targets 2))
  ≡ₚ writes [(Worker 0, offline); (Worker 1, offline); (Worker 1, broken)]
            (pool_of two_targets 2)
     ++ holding (workers (run [(Worker 0, offline); (Worker 1, offline);
                               (Worker 1, broken)] (pool_of two_targets 2)))
     ++ queue (self (run [(Worker 0, offline); (Worker 1, offline);
                          (Worker 1, broken)] (pool_of two_targets 2)))
  ∧ dom (results (self (run [(Worker 0, offline); (Worker 1, offline);
                             (Worker 1, broken)] (pool_of two_targets 2))))
    =@{gset string}
    list_to_set (writes [(Worker 0, offline); (Worker 1, offline);
                         (Worker 1, broken)] (pool_of two_targets 2)).
Proof.
  apply (targets_conserved (Readable two_targets) 2). reflexivity.
Defined.

(** X3. The count of processed targets kept by the progress loop of
    [start] never exceeds the number of stored results, which never
    exceeds the loaded target count: the progress bar cannot pass its
    total. *)
Theorem progress_within_total
    (f : File) (n : nat) (p : Pool) (sc : sched) (k : nat) :
  start f (init n) = Spawned p →
  main (run sc p) = MWhile k ∨ main (run sc p) = MLen k
  ∨ main (run sc p) = MCheck k →
  k ≤ size (results (self (run sc p)))
  ∧ size (results (self (run sc p))) ≤ total_count (self (run sc p))
  ∧ total_count (self (run sc p)) = total_count (self p).
Proof.
  intros Hstart Hk. pose proof (start_inv f n p sc Hstart) as Hinv.
  split; [by apply (inv_processed _ _ _ Hinv)|].
  pose proof (inv_perm _ _ _ Hinv) as Hperm.
  apply Permutation_length in Hperm. rewrite !length_app in Hperm.
  rewrite (inv_total _ _ _ Hinv).
  apply start_spawned in Hstart as (_ & _ & -> & _). split; [|done].
  rewrite <- (size_dom (D:=gset string)), (inv_dom _ _ _ Hinv).
  pose proof (size_list_to_set_le (writes sc p)). lia.
Qed.

Lemma progress_within_total_witness :
  1 ≤ size (results (self (run [(Worker 0, offline); (Worker 0, offline);
                                (Main, offline); (Main, offline)]
                               (pool_of one_target 1))))
  ∧ size (results (self (run [(Worker 0, offline); (Worker 0, offline);
                              (Main, offline); (Main, offline)]
                             (pool_of one_target 1))))
    ≤ total_count (self (run [(Worker 0, offline); (Worker 0, offline);
                              (Main, offline); (Main, offline)]
                             (pool_of one_target 1)))
  ∧ total_count (self (run [(Worker 0, offline); (Worker 0, offline);
                            (Main, offline); (Main, offline)]
                           (pool_of one_target 1)))
    = total_count (self (pool_of one_target 1)).
Proof.
  apply (progress_within_total (Readable one_target) 1).
  - reflexivity.
  - right. right. reflexivity.
Defined.

(** ** One turn, case by case *)

Lemma stored_step (w : World) (d : string) (s : Scanner) :
  ∃ s',
    worker_step w (WScan d) s = Some (WGet, s')
    ∧ results s' = <[d:=stored w d]> (results s)
    ∧ queue s' = queue s ∧ total_count s' = total_count s
    ∧ active_count s'
      = active_count s
        + (if bool_decide (result_status (stored w d) = "active")
           then 1 else 0).
Proof.
  unfold worker_step, stored. destruct (_scan_domain w d) as [result|e].
  - cbn [result_status].
    destruct (bool_decide (status result = "active")); eexists;
      (split; [reflexivity|]); cbn; repeat split; lia.
  - eexists. split; [reflexivity|]. cbn. repeat split.
    rewrite bool_decide_eq_false_2 by done. lia.
Qed.

Lemma turn_kinds (p : Pool) (tw : tid * World) : turn_kind p tw.
Proof.
  destruct tw as [[|i] w].
  - destruct (main_turn w p) as (Hs & Hw & _).
    by apply TurnIdle; cbn [fst snd turn_write turn_take turn_acts].
  - destruct (workers p !! i) as [[|d|]|] eqn:Hi.
    + destruct (queue (self p)) as [|d q] eqn:Hq.
      * apply (TurnExit _ _ i);
          unfold turn, thread_step, turn_write, turn_take, turn_acts;
          cbn [fst snd]; rewrite ?Hi; cbn [mbind option_bind worker_step];
          rewrite ?Hq; done.
      * apply (TurnTake _ _ i d q);
          unfold turn, thread_step, turn_write, turn_take, turn_acts;
          cbn [fst snd]; rewrite ?Hi; cbn [mbind option_bind worker_step];
          rewrite ?Hq; done.
    + destruct (stored_step w d (self p)) as (s' & Hstep & Hr & Hq & Ht & Ha).
      apply (TurnStore _ _ i d);
        unfold turn, thread_step, turn_write, turn_take, turn_acts;
        cbn [fst snd]; rewrite ?Hi; cbn [mbind option_bind];
        rewrite ?Hstep; done.
    + apply TurnIdle;
        unfold turn, thread_step, turn_write, turn_take, turn_acts;
        cbn [fst snd]; rewrite ?Hi; done.
    + apply TurnIdle;
        unfold turn, thread_step, turn_write, turn_take, turn_acts;
        cbn [fst snd]; rewrite ?Hi; done.
Qed.

(** ** Order and number of the worker actions *)

Lemma queue_takes (sc : sched) (p : Pool) :
  queue (self p) = takes sc p ++ queue (self (run sc p)).
Proof.
  revert p. induction sc as [|tw sc IH]; intros p; [done|].
  cbn [takes run foldl]. fold (run sc (turn p tw)).
  rewrite <- app_assoc, <- IH.
  destruct (turn_kinds p tw) as
    [Hs _ _ Ht _|i _ _ _ Hs _ _ _ Ht _|i d q _ _ Hq Hs _ _ _ Ht _
    |i d _ _ _ Hq _ _ _ _ _ Ht _]; rewrite Ht, ?Hs, ?Hq; done.
Qed.

(** X4. Workers take targets in the order of the file: along any run
    from any pool, the queue at the start is the list of the targets
    taken so far, in the order they were taken, followed by the queue
    that is left. Nothing is ever put back on the queue. *)
Theorem targets_taken_in_file_order (sc : sched) (p : Pool) :
  queue (self p) = takes sc p ++ queue (self (run sc p)).
Proof. apply queue_takes. Qed.

Lemma holding_length (ws : list wstate) : length (holding ws) ≤ length ws.
Proof.
  unfold holding. induction ws as [|st ws IH]; [done|].
  rewrite bind_cons, length_app. destruct st; cbn [held length]; lia.
Qed.

(** X2. In a scanner started with [n] threads, every target stored so
    far was taken from the queue before, and the targets taken exceed the
    targets stored by at most [n]: no more than [n] scans are in flight
    at any point of any run. *)
Theorem in_flight_bounded (f : File) (n : nat) (p : Pool) (sc : sched) :
  start f (init n) = Spawned p →
  writes sc p ⊆+ takes sc p
  ∧ length (takes sc p) ≤ length (writes sc p) + n.
Proof.
  intros Hstart. pose proof (start_inv f n p sc Hstart) as Hinv.
  apply start_spawned in Hstart as (_ & _ & _ & Hlen).
  pose proof (inv_perm _ _ _ Hinv) as Hperm.
  rewrite (queue_takes sc p) in Hperm at 1.
  rewrite app_assoc in Hperm. apply Permutation_app_inv_r in Hperm.
  split.
  - rewrite Hperm. by apply submseteq_inserts_r.
  - rewrite Hperm, length_app.
    pose proof (holding_length (workers (run sc p))) as Hh.
    rewrite run_workers_length in Hh. lia.
Qed.

Lemma in_flight_bounded_witness :
  writes [(Worker 0, offline); (Worker 1, offline); (Worker 1, broken)]
         (pool_of two_targets 2)
  ⊆+ takes [(Worker 0, offline); (Worker 1, offline); (Worker 1, broken)]
           (pool_of two_targets 2)
  ∧ length (takes [(Worker 0, offline); (Worker 1, offline);
                   (Worker 1, broken)] (pool_of two_targets 2))
    ≤ length (writes [(Worker 0, offline); (Worker 1, offline);
                      (Worker 1, broken)] (pool_of two_targets 2)) + 2.
Proof.
  apply (in_flight_bounded (Readable two_targets) 2). reflexivity.
Defined.

Lemma pending_turn (p : Pool) (tw : tid * World) :
  turn_acts p tw.1 + pending (turn p tw) = pending p.
Proof.
  unfold pending.
  destruct (turn_kinds p tw) as
    [Hs Hw _ _ Ha|i _ Hi _ Hs Hw _ _ _ Ha|i d q _ Hi Hq Hs Hw _ _ _ Ha
    |i d _ Hi _ Hq _ _ Hw _ _ _ Ha]; rewrite Ha, ?Hs, ?Hw, ?Hq.
  - done.
  - pose proof (wcost_insert (workers p) i WGet WExit Hi). cbn [wcost] in *. lia.
  - pose proof (wcost_insert (workers p) i WGet (WScan d) Hi).
    cbn [wcost set_queue queue length] in *. lia.
  - pose proof (wcost_insert (workers p) i (WScan d) WGet Hi).
    cbn [wcost] in *. lia.
Qed.

Lemma pending_run (sc : sched) (p : Pool) :
  acts sc p + pending (run sc p) = pending p.
Proof.
  revert p. induction sc as [|tw sc IH]; intros p; [done|].
  cbn [acts run foldl]. fold (run sc (turn p tw)).
  rewrite <- (pending_turn p tw), <- (IH (turn p tw)). lia.
Qed.

Lemma pending_complete (p : Pool) : pool_complete p → pending p = 0.
Proof.
  intros [Hq Hw]. unfold pending. rewrite Hq. cbn [length].
  induction Hw as [|st ws -> _ IH]; [done|]. cbn [sum_list_with wcost]. lia.
Qed.

(** X5. In a pool made by [start] for [n] threads and [t] loaded targets,
    the workers act at most [2 * t + n] times along any run, and exactly
    that many times along a run that completes the pool: one take and one
    store for each target, and one last look at the empty queue for each
    worker. No target is retried and no worker acts after it has left. *)
Theorem worker_actions_counted
    (f : File) (n : nat) (p : Pool) (sc : sched) :
  start f (init n) = Spawned p →
  acts sc p ≤ 2 * length (queue (self p)) + n
  ∧ (pool_complete (run sc p) →
     acts sc p = 2 * length (queue (self p)) + n).
Proof.
  intros (Hp & _ & _ & Hlen)%start_spawned.
  assert (pending p = 2 * length (queue (self p)) + n) as Hpend.
  { unfold pending. f_equal. rewrite Hp in Hlen |- *.
    cbn [spawn workers] in *. rewrite length_replicate in Hlen.
    rewrite Hlen. clear. induction n as [|n IH]; [done|].
    cbn [replicate sum_list_with wcost]. lia. }
  pose proof (pending_run sc p) as Hrun. split; [lia|].
  intros Hc%pending_complete. lia.
Qed.

Lemma worker_actions_counted_witness :
  acts two_workers_run (pool_of two_targets 2)
  = 2 * length (queue (self (pool_of two_targets 2))) + 2.
Proof.
  apply (worker_actions_counted (Readable two_targets) 2); [reflexivity|].
  split; [reflexivity|]. vm_compute. repeat constructor.
Defined.

(** ** Stored results *)

Lemma run_ind_inv (targets : list string) (P : list string → Pool → Prop) :
  (∀ done p tw,
     pool_inv targets done p → P done p →
     P (done ++ turn_write p tw.1) (turn p tw)) →
  ∀ sc done p,
    pool_inv targets done p → P done p →
    P (done ++ writes sc p) (run sc p).
Proof.
  intros Hstep sc. induction sc as [|tw sc IH]; intros done p Hinv HP.
  - cbn. by rewrite app_nil_r.
  - cbn [writes run foldl]. rewrite app_assoc.
    apply IH; [by apply inv_turn|by apply Hstep].
Qed.

Lemma store_fresh (targets done : list string) (p : Pool) (i : nat)
    (d : string) :
  pool_inv targets done p → NoDup targets →
  workers p !! i = Some (WScan d) →
  results (self p) !! d = None.
Proof.
  intros Hinv Hnd Hi. apply held_in_holding in Hi.
  rewrite (inv_perm _ _ _ Hinv) in Hnd.
  apply NoDup_app in Hnd as (_ & Hdis & _).
  apply (not_elem_of_dom (D:=gset string)).
  rewrite (inv_dom _ _ _ Hinv), elem_of_list_to_set.
  intros Hd. apply (Hdis d Hd). apply elem_of_app. by left.
Qed.

(** X6. When the loaded targets are distinct, a result once stored is
    never replaced or removed: whatever the run does next, the results
    dictionary keeps that value under that target. *)
Theorem stored_result_is_final
    (f : File) (n : nat) (p : Pool) (sc1 sc2 : sched) (d : string)
    (r : Result) :
  start f (init n) = Spawned p →
  NoDup (queue (self p)) →
  results (self (run sc1 p)) !! d = Some r →
  results (self (run (sc1 ++ sc2) p)) !! d = Some r.
Proof.
  intros Hstart Hnd Hr. rewrite run_app.
  pose proof (start_inv f n p sc1 Hstart) as Hinv.
  apply (run_ind_inv (queue (self p))
           (λ _ q, results (self q) !! d = Some r) ) with (done := writes sc1 p);
    [|done..].
  clear -Hnd. intros done q tw Hinv Hr.
  destruct (turn_kinds q tw) as
    [Hs _ _ _ _|i _ _ _ Hs _ _ _ _ _|i d' q' _ _ _ Hs _ _ _ _ _
    |i d' _ Hi Hres _ _ _ _ _ _ _ _]; rewrite ?Hs; try done.
  rewrite Hres, lookup_insert_ne; [done|].
  intros ->. pose proof (store_fresh _ _ _ _ _ Hinv Hnd Hi). congruence.
Qed.

Lemma stored_result_is_final_witness :
  results (self (run ([(Worker 0, offline); (Worker 0, offline)]
                      ++ [(Worker 1, broken); (Worker 1, broken)])
                     (pool_of two_targets 2))) !! "http://a.onion"
  = Some (stored offline "http://a.onion").
Proof.
  apply (stored_result_is_final (Readable two_targets) 2).
  - reflexivity.
  - refine (bool_decide_unpack _ _). vm_compute. exact I.
  - reflexivity.
Defined.

Lemma start_active_count (f : File) (n : nat) (p : Pool) :
  start f (init n) = Spawned p → active_count (self p) = 0.
Proof.
  destruct f as [|e|content]; [by cbn..|]. unfold start.
  destruct (load_readable content (init n)) as (new & Hl & _).
  rewrite Hl. cbn [negb]. by intros ?; simplify_eq.
Qed.

Lemma active_count_inv (f : File) (n : nat) (p : Pool) (sc : sched) :
  start f (init n) = Spawned p →
  NoDup (queue (self p)) →
  active_count (self (run sc p))
  = length (filter (λ item, result_status item.2 = "active")
                   (map_to_list (results (self (run sc p))))).
Proof.
  intros Hstart Hnd.
  pose proof (start_inv f n p [] Hstart) as Hinv. cbn in Hinv.
  apply (run_ind_inv (queue (self p))
           (λ _ q, active_count (self q)
                   = length (filter (λ item, result_status item.2 = "active")
                                    (map_to_list (results (self q))))))
    with (done := []); [|done|].
  - clear -Hnd. intros done q tw Hinv Hc.
    destruct (turn_kinds q tw) as
      [Hs _ _ _ _|i _ _ _ Hs _ _ _ _ _|i d' q' _ _ _ Hs _ _ _ _ _
      |i d' _ Hi Hres _ _ Ha _ _ _ _ _]; rewrite ?Hs; try done.
    rewrite Ha, Hres, Hc.
    rewrite map_to_list_insert by by eapply store_fresh.
    rewrite filter_cons. cbn [snd].
    destruct (decide (result_status (stored tw.2 d') = "active")) as [Hy|Hy].
    + rewrite (bool_decide_eq_true_2 _ Hy). cbn [length]. lia.
    + rewrite (bool_decide_eq_false_2 _ Hy). lia.
  - rewrite (start_active_count f n p Hstart).
    apply start_spawned in Hstart as (_ & -> & _).
    by rewrite map_to_list_empty.
Qed.

(** X7. When the loaded targets are distinct, the counter of active
    targets agrees at every moment with the results dictionary: it is the
    number of entries the report lists under its active heading, so the
    "# Active:" line of the header and the active section never
    disagree. *)
Theorem active_count_matches_report
    (f : File) (n : nat) (p : Pool) (sc : sched) :
  start f (init n) = Spawned p →
  NoDup (queue (self p)) →
  active_count (self (run sc p))
  = length (group "active" (sorted_items (results (self (run sc p))))).
Proof.
  intros Hstart Hnd. rewrite (active_count_inv f n p sc Hstart Hnd).
  unfold group, sorted_items. by rewrite merge_sort_Permutation.
Qed.

Lemma active_count_matches_report_witness :
  active_count (self (run two_workers_run (pool_of two_targets 2)))
  = length (group "active"
              (sorted_items
                 (results (self (run two_workers_run
                                   (pool_of two_targets 2)))))).
Proof.
  apply (active_count_matches_report (Readable two_targets) 2).
  - reflexivity.
  - refine (bool_decide_unpack _ _). vm_compute. exact I.
Defined.

(** ** Repeated lines and empty pools *)

Lemma NoDup_of_size (l : list string) :
  length l ≤ size (list_to_set l : gset string) → NoDup l.
Proof.
  induction l as [|x l IH]; [constructor|].
  rewrite list_to_set_cons. cbn [length].
  pose proof (size_list_to_set_le l) as Hle.
  destruct (decide (x ∈ (list_to_set l : gset string))) as [Hin|Hin].
  - rewrite (subseteq_union_1_L (C:=gset string))
      by (by apply singleton_subseteq_l).
    lia.
  - rewrite size_union by (by apply disjoint_singleton_l).
    rewrite size_singleton. intros Hs. constructor.
    + by rewrite elem_of_list_to_set in Hin.
    + apply IH. lia.
Qed.

Lemma repeated_target_short (targets done : list string) (p : Pool) :
  pool_inv targets done p → ¬ NoDup targets →
  size (results (self p)) < total_count (self p).
Proof.
  intros Hinv Hdup. apply Nat.nle_gt. intros Hle. apply Hdup.
  rewrite (inv_total _ _ _ Hinv) in Hle.
  destruct (all_stored _ _ _ (inv_perm _ _ _ Hinv) (inv_dom _ _ _ Hinv) Hle)
    as [Hq Hh].
  pose proof (inv_perm _ _ _ Hinv) as Hperm.
  rewrite Hq, Hh, !app_nil_r in Hperm. rewrite Hperm.
  apply NoDup_of_size.
  rewrite <- (inv_dom _ _ _ Hinv), (size_dom (D:=gset string)).
  by rewrite <- Hperm.
Qed.

Lemma turn_worker_main (p : Pool) (i : nat) (w : World) :
  main (turn p (Worker i, w)) = main p.
Proof.
  unfold turn, thread_step. cbn [fst snd].
  destruct (workers p !! i) as [st|]; cbn [mbind option_bind]; [|done].
  by destruct (worker_step w st (self p)) as [[st' s']|].
Qed.

Lemma turn_complete (p : Pool) (i : nat) (w : World) :
  pool_complete p → turn p (Worker i, w) = p.
Proof.
  intros [_ Hw]. unfold turn, thread_step. cbn [fst snd].
  destruct (workers p !! i) as [st|] eqn:Hi; cbn [mbind option_bind]; [|done].
  apply list_elem_of_lookup_2 in Hi.
  by rewrite (proj1 (Forall_forall _ _) Hw st Hi).
Qed.

(** X8. When a target is loaded more than once, the results dictionary
    always has fewer entries than the loaded target count, so the
    progress loop of [start] is never left through its count: whenever
    [start] is past the loop, the queue is empty and every worker is
    out. *)
Theorem repeated_target_waits_for_workers
    (f : File) (n : nat) (p : Pool) (sc : sched) :
  start f (init n) = Spawned p →
  ¬ NoDup (queue (self p)) →
  size (results (self (run sc p))) < total_count (self (run sc p))
  ∧ (past_loop (run sc p) → pool_complete (run sc p)).
Proof.
  intros Hstart Hdup. split.
  { apply (repeated_target_short (queue (self p)) (writes sc p)); [|done].
    by apply (start_inv f n). }
  pose proof (start_inv f n p [] Hstart) as Hinv. cbn in Hinv.
  apply (run_ind_inv (queue (self p))
           (λ _ q, past_loop q → pool_complete q)) with (done := []);
    [|done|].
  - clear -Hdup. intros done q [[|i] w] Hinv Hq; cbn [fst snd].
    + pose proof (repeated_target_short _ _ _ Hinv Hdup) as Hlt.
      pose proof (inv_processed _ _ _ Hinv) as Hk.
      destruct (main_turn w q) as (Hs & Hw & Hm).
      rewrite !past_loop_inv in *. rewrite Hm.
      unfold pool_complete. rewrite Hs, Hw. fold (pool_complete q).
      destruct (main q) as [k|k|k| |r].
      * assert ((k <? total_count (self q)) = true) as ->.
        { apply Nat.ltb_lt. assert (k ≤ size (results (self q)))
            by (apply Hk; auto). lia. }
        intros [?|[?|?]]; simplify_eq.
      * intros [?|[?|?]]; simplify_eq.
      * destruct (queue_empty (self q) && all_exited (workers q)) eqn:Hc.
        -- intros _. by apply pool_complete_check.
        -- intros [?|[?|?]]; simplify_eq.
      * intros _. apply Hq. by left.
      * intros _. apply Hq. right. by destruct r; [left|right].
    + rewrite !past_loop_inv, turn_worker_main, <- past_loop_inv.
      intros Hc%Hq. by rewrite turn_complete.
  - rewrite past_loop_inv.
    apply start_spawned in Hstart as (-> & _). cbn [spawn main].
    intros [?|[?|?]]; simplify_eq.
Qed.

Lemma repeated_target_waits_for_workers_witness :
  size (results (self (run [(Worker 0, offline); (Worker 0, offline)]
                           (pool_of twice_same 1))))
  < total_count (self (run [(Worker 0, offline); (Worker 0, offline)]
                           (pool_of twice_same 1)))
  ∧ (past_loop (run [(Worker 0, offline); (Worker 0, offline)]
                    (pool_of twice_same 1)) →
     pool_complete (run [(Worker 0, offline); (Worker 0, offline)]
                        (pool_of twice_same 1))).
Proof.
  apply (repeated_target_waits_for_workers (Readable twice_same) 1).
  - reflexivity.
  - intros Hnd. apply NoDup_cons in Hnd as [Hnin _]. apply Hnin.
    apply list_elem_of_here.
Defined.

Lemma no_worker_stuck (s : Scanner) (sc : sched) (q : Pool) :
  results s = ∅ → total_count s = length (queue s) → queue s ≠ [] →
  self q = s → workers q = [] →
  main q = MWhile 0 ∨ main q = MLen 0 ∨ main q = MCheck 0 →
  main (run sc q) = MWhile 0 ∨ main (run sc q) = MLen 0
  ∨ main (run sc q) = MCheck 0.
Proof.
  intros Hr Ht Hne. revert q.
  induction sc as [|[[|i] w] sc IH]; intros q Hs Hw Hm; [done|..];
    cbn [run foldl].
  - fold (run sc (turn q (Main, w))).
    destruct (main_turn w q) as (Hs' & Hw' & Hm').
    apply IH; [by rewrite Hs'|by rewrite Hw'|].
    rewrite Hm', Hs, Hw.
    destruct Hm as [->|[->| ->]].
    + rewrite Ht. destruct (queue s); [done|]. cbn. auto.
    + rewrite Hr, map_size_empty. cbn. auto.
    + unfold queue_empty. destruct (queue s); [done|]. cbn. auto.
  - fold (run sc (turn q (Worker i, w))).
    assert (turn q (Worker i, w) = q) as ->; [|by apply IH].
    unfold turn, thread_step. cbn [fst snd]. by rewrite Hw.
Qed.

(** X9. A scanner made with zero threads gets past the progress loop of
    [start] in some run if and only if no target was loaded: with targets
    on the queue and no worker to take them, [start] stays in its loop
    whatever the schedule. *)
Theorem no_worker_no_report (f : File) (p : Pool) :
  start f (init 0) = Spawned p →
  (∃ sc, past_loop (run sc p)) ↔ queue (self p) = [].
Proof.
  intros Hstart. split.
  - intros [sc Hpast]. destruct (queue (self p)) as [|d q] eqn:Hq; [done|].
    apply start_spawned in Hstart as (Hp & Hr & Ht & Hlen).
    assert (main (run sc p) = MWhile 0 ∨ main (run sc p) = MLen 0
            ∨ main (run sc p) = MCheck 0) as Hm.
    { apply (no_worker_stuck (self p)); try done.
      - by rewrite Hq.
      - by apply nil_length_inv.
      - rewrite Hp. cbn [spawn main]. auto. }
    rewrite past_loop_inv in Hpast.
    destruct Hm as [Hm|[Hm|Hm]]; rewrite Hm in Hpast;
      by destruct Hpast as [?|[?|?]].
  - intros Hq. exists [(Main, offline)]. cbn [run foldl]. left.
    destruct (main_turn offline p) as (_ & _ & ->).
    apply start_spawned in Hstart as (Hp & _ & Ht & _).
    rewrite Hp at 1. cbn [spawn main]. by rewrite Ht, Hq.
Qed.

Lemma no_worker_no_report_witness :
  (∃ sc, past_loop (run sc (pool_of "" 0))) ↔ queue (self (pool_of "" 0)) = [].
Proof.
  apply (no_worker_no_report (Readable "")). reflexivity.
Defined.

(** ** What a scan can produce *)

Lemma scan_status (w : World) (url : string) (result : ScanInfo) :
  _scan_domain w url = Return result →
  status result = "active" ∨ status result = "inactive".
Proof.
  unfold _scan_domain, scan_except.
  repeat match goal with
         | |- context [match ?x with _ => _ end] => destruct x
         end; intros ?; simplify_eq; cbn; auto.
Qed.

(** X10. A target is stored with status "error" exactly when the GET
    raised an exception that is not a request exception, or the GET
    returned a response whose Content-Type contains "text/html" and the
    parser raised such an exception; the stored message is the text of
    that exception. *)
Theorem error_status_iff (w : World) (url msg : string) :
  stored w url = ErrorDict msg
  ↔ session_get w url = Raise (OtherException msg)
    ∨ ∃ response,
        session_get w url = Return response
        ∧ PyStr.contains "text/html"
            (default "Unknown" (headers_get response "Content-Type")) = true
        ∧ BeautifulSoup w (text response) = Raise (OtherException msg).
Proof.
  unfold stored, _scan_domain, scan_except.
  destruct (session_get w url) as [response|[m|m]] eqn:Hget.
  - destruct (PyStr.contains _ _) eqn:Hc.
    + destruct (BeautifulSoup w (text response)) as [soup|[m|m]] eqn:Hb; cbn.
      * split; [done|]. intros [?|(r & ? & _ & ?)]; simplify_eq. congruence.
      * split; [done|]. intros [?|(r & ? & _ & ?)]; simplify_eq. congruence.
      * split.
        -- intros ?; simplify_eq. right. by exists response.
        -- intros [?|(r & ? & _ & ?)]; simplify_eq. congruence.
    + split; [done|]. intros [?|(r & ? & ? & _)]; simplify_eq. congruence.
  - cbn. split; [done|]. intros [?|(r & ? & _)]; simplify_eq.
  - cbn. split.
    + intros ?; simplify_eq. by left.
    + intros [?|(r & ? & _)]; by simplify_eq.
Qed.

(** X11. A result returned by [_scan_domain] with status "inactive"
    carries no data at all: no code, title, server or content type, and
    zero links. One with status "active" always has a response code, a
    server and a content type (with "Unknown" for a missing header); when
    that content type does not contain "text/html" the page is not
    parsed, so the title stays [None] and the link count zero. *)
Theorem scan_result_fields (w : World) (url : string) (result : ScanInfo) :
  _scan_domain w url = Return result →
  (status result = "inactive" →
   response_code result = None ∧ title result = None
   ∧ server result = None ∧ content_type result = None
   ∧ links result = 0)
  ∧ (status result = "active" →
     ∃ response ctype,
       session_get w url = Return response
       ∧ response_code result = Some (status_code response)
       ∧ server result
         = Some (default "Unknown" (headers_get response "Server"))
       ∧ ctype = default "Unknown" (headers_get response "Content-Type")
       ∧ content_type result = Some ctype
       ∧ (PyStr.contains "text/html" ctype = false →
          title result = None ∧ links result = 0)).
Proof.
  unfold _scan_domain, scan_except.
  destruct (session_get w url) as [response|[m|m]]; [|by intros ?; simplify_eq..].
  destruct (PyStr.contains _ _) eqn:Hc.
  - destruct (BeautifulSoup w (text response)) as [soup|[m|m]];
      intros ?; simplify_eq; (split; [done|]); intros _;
      exists response; eexists; cbn; rewrite Hc; by repeat split.
  - intros ?; simplify_eq. split; [done|]. intros _.
    exists response. eexists. cbn. by repeat split.
Qed.

Lemma scan_result_fields_witness :
  ∃ result,
    _scan_domain offline "http://a.onion" = Return result
    ∧ response_code result = None ∧ title result = None
    ∧ server result = None ∧ content_type result = None
    ∧ links result = 0.
Proof.
  eexists. split; [reflexivity|].
  apply (proj1 (scan_result_fields offline "http://a.onion" _ eq_refl)).
  reflexivity.
Defined.

(** ** The results dictionary and the report *)

Lemma stored_status (w : World) (d : string) :
  result_status (stored w d) = "active"
  ∨ result_status (stored w d) = "inactive"
  ∨ result_status (stored w d) = "error".
Proof.
  unfold stored. destruct (_scan_domain w d) as [result|e] eqn:Hs; cbn; auto.
  destruct (scan_status w d result Hs); auto.
Qed.

Lemma results_statuses (f : File) (n : nat) (p : Pool) (sc : sched) :
  start f (init n) = Spawned p →
  ∀ d r, results (self (run sc p)) !! d = Some r →
         result_status r = "active" ∨ result_status r = "inactive"
         ∨ result_status r = "error".
Proof.
  intros Hstart.
  pose proof (start_inv f n p [] Hstart) as Hinv. cbn in Hinv.
  apply (run_ind_inv (queue (self p))
           (λ _ q, ∀ d r, results (self q) !! d = Some r →
                          result_status r = "active"
                          ∨ result_status r = "inactive"
                          ∨ result_status r = "error"))
    with (done := []); [|done|].
  - clear. intros done q tw _ Hq.
    destruct (turn_kinds q tw) as
      [Hs _ _ _ _|i _ _ _ Hs _ _ _ _ _|i d' q' _ _ _ Hs _ _ _ _ _
      |i d' _ _ Hres _ _ _ _ _ _ _ _]; rewrite ?Hs; try done.
    intros d r. rewrite Hres. destruct (decide (d' = d)) as [->|Hne].
    + rewrite lookup_insert_eq. intros ?; simplify_eq. apply stored_status.
    + rewrite lookup_insert_ne by done. apply Hq.
  - apply start_spawned in Hstart as (_ & -> & _). intros d r.
    by rewrite lookup_empty.
Qed.

Lemma filter_three {A} (P1 P2 P3 : A → Prop)
    `{!∀ x, Decision (P1 x), !∀ x, Decision (P2 x), !∀ x, Decision (P3 x)}
    (l : list A) :
  Forall (λ x, P1 x ∨ P2 x ∨ P3 x) l →
  (∀ x, P1 x → ¬ P2 x) → (∀ x, P1 x → ¬ P3 x) → (∀ x, P2 x → ¬ P3 x) →
  filter P1 l ++ filter P2 l ++ filter P3 l ≡ₚ l.
Proof.
  intros Hall H12 H13 H23. induction Hall as [|x l Hx _ IH]; [done|].
  rewrite !filter_cons.
  destruct (decide (P1 x)) as [Ha|Ha];
    destruct (decide (P2 x)) as [Hb|Hb];
    destruct (decide (P3 x)) as [Hc|Hc];
    try (exfalso;
         first [ by eapply H12 | by eapply H13 | by eapply H23
               | by destruct Hx as [?|[?|?]] ]);
    cbn [app].
  - by rewrite IH.
  - rewrite <- Permutation_middle. by rewrite IH.
  - rewrite app_assoc, <- Permutation_middle, <- app_assoc. by rewrite IH.
Qed.

(** X12. At every point of every run each entry of the results dictionary
    has one of the three statuses the report asks for, so the three
    groups of the report, taken together, hold every stored target
    exactly once: no result is left out of the report and none is listed
    twice. *)
Theorem report_lists_every_result
    (f : File) (n : nat) (p : Pool) (sc : sched) :
  start f (init n) = Spawned p →
  group "active" (sorted_items (results (self (run sc p))))
  ++ group "inactive" (sorted_items (results (self (run sc p))))
  ++ group "error" (sorted_items (results (self (run sc p))))
  ≡ₚ map_to_list (results (self (run sc p))).
Proof.
  intros Hstart. unfold group.
  rewrite filter_three.
  - apply merge_sort_Permutation.
  - apply Forall_forall. intros [d r] Hin. cbn [snd].
    apply (results_statuses f n p sc Hstart d).
    apply elem_of_map_to_list. revert Hin. unfold sorted_items.
    by rewrite merge_sort_Permutation.
  - intros x ->. done.
  - intros x ->. done.
  - intros x ->. done.
Qed.

Lemma report_lists_every_result_witness :
  group "active" (sorted_items
                    (results (self (run two_workers_run
                                      (pool_of two_targets 2)))))
  ++ group "inactive" (sorted_items
                         (results (self (run two_workers_run
                                           (pool_of two_targets 2)))))
  ++ group "error" (sorted_items
                      (results (self (run two_workers_run
                                        (pool_of two_targets 2)))))
  ≡ₚ map_to_list (results (self (run two_workers_run
                                   (pool_of two_targets 2)))).
Proof.
  apply (report_lists_every_result (Readable two_targets) 2). reflexivity.
Defined.

Lemma results_from_world (w : World) (sc : sched) (p : Pool) :
  Forall (λ tw, tw.2 = w) sc →
  (∀ d r, results (self p) !! d = Some r → r = stored w d) →
  ∀ d r, results (self (run sc p)) !! d = Some r → r = stored w d.
Proof.
  intros Hsc. revert p. induction Hsc as [|tw sc Hw _ IH]; intros p Hp; [done|].
  cbn [run foldl]. fold (run sc (turn p tw)). apply IH.
  destruct (turn_kinds p tw) as
    [Hs _ _ _ _|i _ _ _ Hs _ _ _ _ _|i d' q' _ _ _ Hs _ _ _ _ _
    |i d' _ _ Hres _ _ _ _ _ _ _ _]; rewrite ?Hs; try done.
  intros d r. rewrite Hres, Hw. destruct (decide (d' = d)) as [->|Hne].
  - rewrite lookup_insert_eq. by intros ?; simplify_eq.
  - rewrite lookup_insert_ne by done. apply Hp.
Qed.

(** X13. When the world answers in the same way at every turn, the
    results do not depend on the schedule: two runs that both end with
    the pool complete, or with [start] past its loop, end with the same
    results dictionary, which gives to each loaded target what a scan of
    it produces in that world. *)
Theorem results_independent_of_schedule
    (f : File) (n : nat) (p : Pool) (w : World) (sc1 sc2 : sched) :
  start f (init n) = Spawned p →
  Forall (λ tw, tw.2 = w) sc1 → Forall (λ tw, tw.2 = w) sc2 →
  pool_complete (run sc1 p) ∨ past_loop (run sc1 p) →
  pool_complete (run sc2 p) ∨ past_loop (run sc2 p) →
  results (self (run sc1 p)) = results (self (run sc2 p))
  ∧ ∀ d, d ∈ queue (self p) →
         results (self (run sc1 p)) !! d = Some (stored w d).
Proof.
  intros Hstart Hw1 Hw2 Hf1 Hf2.
  assert (∀ sc, Forall (λ tw, tw.2 = w) sc →
                pool_complete (run sc p) ∨ past_loop (run sc p) →
                ∀ d, results (self (run sc p)) !! d
                     = if decide (d ∈ queue (self p))
                       then Some (stored w d) else None) as Hall.
  { intros sc Hw Hf d.
    destruct (finished_inv _ _ _ (start_inv f n p sc Hstart) Hf) as [_ Hin].
    pose proof (start_spawned f n p Hstart) as (_ & Hr & _).
    destruct (decide (d ∈ queue (self p))) as [Hd|Hd].
    - apply Hin in Hd as [r Hr']. rewrite Hr'. f_equal.
      apply (results_from_world w sc p Hw); [|done].
      intros d' r'. by rewrite Hr, lookup_empty.
    - destruct (results (self (run sc p)) !! d) eqn:Hl; [|done].
      exfalso. apply Hd, Hin. by eexists. }
  split.
  - apply map_eq. intros d. by rewrite !Hall.
  - intros d Hd. by rewrite Hall, decide_True.
Qed.

Lemma results_independent_of_schedule_witness :
  results (self (run [(Worker 0, offline); (Worker 0, offline);
                      (Worker 0, offline); (Worker 0, offline);
                      (Worker 0, offline); (Worker 1, offline)]
                     (pool_of two_targets 2)))
  = results (self (run [(Worker 1, offline); (Worker 0, offline);
                        (Worker 0, offline); (Worker 1, offline);
                        (Worker 1, offline); (Worker 0, offline)]
                       (pool_of two_targets 2)))
  ∧ ∀ d, d ∈ queue (self (pool_of two_targets 2)) →
         results (self (run [(Worker 0, offline); (Worker 0, offline);
                             (Worker 0, offline); (Worker 0, offline);
                             (Worker 0, offline); (Worker 1, offline)]
                            (pool_of two_targets 2))) !! d
         = Some (stored offline d).
Proof.
  apply (results_independent_of_schedule (Readable two_targets) 2).
  - reflexivity.
  - repeat constructor.
  - repeat constructor.
  - left. split; [reflexivity|]. vm_compute. repeat constructor.
  - left. split; [reflexivity|]. vm_compute. repeat constructor.
Defined.

(** ** The loaded targets *)

Lemma prefix_nil (z : string) : Stdlib.Strings.String.prefix "" z = true.
Proof. by destruct z. Qed.

Lemma prefix_app (p x y : string) :
  Stdlib.Strings.String.prefix p x = true →
  Stdlib.Strings.String.prefix p (x +:+ y) = true.
Proof.
  revert x. induction p as [|a p IH]; intros x Hp; [apply prefix_nil|].
  destruct x as [|b x]; [done|].
  change (String b x +:+ y) with (String b (x +:+ y)).
  cbn [Stdlib.Strings.String.prefix] in *.
  destruct (ascii_dec a b); [by apply IH|done].
Qed.

Lemma rev_app_acc (s acc : string) :
  String.rev_app s acc = String.rev_app s "" +:+ acc.
Proof.
  revert acc. induction s as [|a s IH]; intros acc; [done|].
  cbn [String.rev_app]. rewrite (IH (String a acc)), (IH (String a "")).
  by rewrite string_app_assoc.
Qed.

Lemma rev_app_string (a b : string) :
  String.rev (a +:+ b) = String.rev b +:+ String.rev a.
Proof.
  unfold String.rev. induction a as [|x a IH].
  - change ("" +:+ b) with b. by rewrite string_app_nil_r.
  - change (String x a +:+ b) with (String x (a +:+ b)).
    cbn [String.rev_app].
    rewrite (rev_app_acc (a +:+ b)), IH, (rev_app_acc a (String x "")).
    by rewrite string_app_assoc.
Qed.

Lemma endswith_app (a d p : string) :
  PyStr.endswith d p = true → PyStr.endswith (a +:+ d) p = true.
Proof.
  unfold PyStr.endswith. rewrite rev_app_string. apply prefix_app.
Qed.

Lemma foldl_load_line_Forall (lines acc : list string) :
  Forall (λ d, PyStr.startswith d "http" = true
               ∧ PyStr.endswith d ".onion" = true) acc →
  Forall (λ d, PyStr.startswith d "http" = true
               ∧ PyStr.endswith d ".onion" = true)
         (foldl load_line acc lines).
Proof.
  revert acc. induction lines as [|line lines IH]; intros acc Hacc; [done|].
  cbn [foldl]. apply IH. unfold load_line.
  destruct (PyStr.truthy (PyStr.strip line)); [|done].
  destruct (PyStr.endswith (PyStr.strip line) ".onion") eqn:He; [|done].
  cbn [andb]. apply Forall_app. split; [done|]. constructor; [|constructor].
  destruct (PyStr.startswith (PyStr.strip line) "http") eqn:Hs; cbn [negb].
  - done.
  - split; [reflexivity|by apply endswith_app].
Qed.

(** X14. Every target [start] puts on the queue begins with "http" and
    ends with ".onion", whatever the file holds. *)
Theorem loaded_targets_well_formed (f : File) (n : nat) (p : Pool) :
  start f (init n) = Spawned p →
  Forall (λ d, PyStr.startswith d "http" = true
               ∧ PyStr.endswith d ".onion" = true)
         (queue (self p)).
Proof.
  destruct f as [|e|content]; [by cbn..|]. unfold start.
  cbn [_load_onion_domains negb]. intros ?; simplify_eq.
  cbn [spawn self]. rewrite foldl_queue_put. cbn [set_queue queue].
  cbn [set_total_count init queue app].
  by apply foldl_load_line_Forall.
Qed.

Lemma loaded_targets_well_formed_witness :
  Forall (λ d, PyStr.startswith d "http" = true
               ∧ PyStr.endswith d ".onion" = true)
         (queue (self (pool_of two_targets 2))).
Proof.
  apply (loaded_targets_well_formed (Readable two_targets) 2). reflexivity.
Defined.

(** ** After the progress loop *)

Lemma turn_after_loop (targets dn : list string) (q : Pool)
    (tw : tid * World) :
  pool_inv targets dn q → past_loop q →
  past_loop (turn q tw) ∧ self (turn q tw) = self q.
Proof.
  intros Hinv Hp. destruct tw as [[|i] w].
  - destruct (main_turn w q) as (Hs & _ & Hm). split; [|done].
    rewrite past_loop_inv in *. rewrite Hm.
    destruct Hp as [->|[->| ->]]; auto.
  - split.
    + rewrite past_loop_inv in *. by rewrite turn_worker_main.
    + destruct (inv_past _ _ _ Hinv Hp) as [Hq Hh].
      destruct (turn_kinds q (Worker i, w)) as
        [Hs _ _ _ _|j _ _ _ Hs _ _ _ _ _|j d' q' _ _ Hq' _ _ _ _ _ _
        |j d' _ Hj _ _ _ _ _ _ _ _ _]; [done|done|..].
      * by rewrite Hq in Hq'.
      * apply held_in_holding in Hj. rewrite Hh in Hj.
        by apply not_elem_of_nil in Hj.
Qed.

Lemma run_after_loop (targets : list string) (sc : sched)
    (dn : list string) (q : Pool) :
  pool_inv targets dn q → past_loop q → self (run sc q) = self q.
Proof.
  revert dn q. induction sc as [|tw sc IH]; intros dn q Hinv Hp; [done|].
  cbn [run foldl]. fold (run sc (turn q tw)).
  destruct (turn_after_loop _ _ _ tw Hinv Hp) as [Hp' Hs'].
  rewrite <- Hs'. apply (IH (dn ++ turn_write q tw.1)); [|done].
  by apply inv_turn.
Qed.

(** X15. Once [start] is past its progress loop, the scanner no longer
    changes: whatever the workers still alive do, the queue, the results
    dictionary and the two counters stay as they are, so the report is
    written from the final results. *)
Theorem scanner_final_after_loop
    (f : File) (n : nat) (p : Pool) (sc1 sc2 : sched) :
  start f (init n) = Spawned p →
  past_loop (run sc1 p) →
  self (run (sc1 ++ sc2) p) = self (run sc1 p).
Proof.
  intros Hstart Hpast. rewrite run_app.
  apply (run_after_loop (queue (self p)) sc2 (writes sc1 p)); [|done].
  by apply (start_inv f n).
Qed.

Lemma scanner_final_after_loop_witness :
  self (run (early_report_run ++ [(Worker 0, offline); (Main, offline)])
            (pool_of one_target 1))
  = self (run early_report_run (pool_of one_target 1)).
Proof.
  apply (scanner_final_after_loop (Readable one_target) 1).
  - reflexivity.
  - left. reflexivity.
Defined.
